(** * Ownership and lifetime protocol of the smart pointers

    A shallow embedding of [src/shared_and_weak.cpp] (control_block,
    my_shared_ptr, my_weak_ptr) and [src/unique_ptr.cpp] (my_unique_ptr).

    Memory is explicit: a heap maps the address of every control block that
    is currently allocated to its two counters; destructor calls and
    deallocations are appended to a log.  Every member function becomes a
    heap transformer that can fault: reading or writing a control block
    through a pointer whose block has been deleted is undefined in C++ and
    is reported as [Fault UseAfterFree].  *)

From Stdlib Require Import ZArith Lia.
From stdpp Require Import base option gmap list fin_maps.

(** ** Machine integers: [std::atomic<int>] *)

Definition INT_MAX : Z := 2147483647.
Definition INT_MIN : Z := (-2147483648)%Z.

(** [fetch_add] and [fetch_sub] on an atomic [int] wrap around in two's
    complement. *)
Definition wrap_int (z : Z) : Z :=
  ((z + 2147483648) `mod` 4294967296 - 2147483648)%Z.

(** ** Results of running a member function *)

Inductive fault :=
  | UseAfterFree   (* access to a control block or object that was deleted *)
  | NullAccess     (* member access through a null pointer *)
  | NotInScope.    (* the statement names a variable that does not exist,
                      or declares one that already does *)

Inductive result (A : Type) :=
  | Ok (a : A)
  | Fault (f : fault).
Arguments Ok {A} a.
Arguments Fault {A} f.

(** A factory either returns or lets the exception thrown by the payload's
    constructor escape to its caller. *)
Inductive completion (A : Type) :=
  | Returned (a : A)
  | Thrown.
Arguments Returned {A} a.
Arguments Thrown {A}.

(** Addresses name allocations.  An allocation never receives the name of an
    earlier one, so the address of a deleted block stays unmapped. *)
Abbreviation addr := nat (only parsing).

Module shared_and_weak.

(** *** control_block<T> *)

Record control_block := ControlBlock {
  strong_count : Z;
  weak_count : Z
}.

(** [control_block() : strong_count(1), weak_count(0) {}] *)
Definition control_block_ctor : control_block := ControlBlock 1 0.

Inductive event :=
  | Destroyed (p : addr)   (* [p->~T()]: the destructor runs, storage stays *)
  | Deleted (p : addr)     (* [delete p] on a T: destructor, then deallocation *)
  | Freed (c : addr).      (* [delete this] on the control block at [c] *)

#[global] Instance event_eq_dec : EqDecision event.
Proof. solve_decision. Defined.

Record heap := Heap {
  blocks : gmap nat control_block;
  events : list event;
  next_addr : addr
}.

Definition M (A : Type) : Type := heap → result (A * heap).

Definition ret {A} (a : A) : M A := λ h, Ok (a, h).

Definition bind {A B} (m : M A) (k : A → M B) : M B :=
  λ h, match m h with
       | Ok (a, h') => k a h'
       | Fault f => Fault f
       end.

#[global] Instance M_ret : MRet M := @ret.
#[global] Instance M_bind : MBind M := λ A B k m, bind m k.

Definition raise {A} (f : fault) : M A := λ _, Fault f.

(** Heap updates: store a block, remove a block, append to the log. *)
Definition set_block (c : addr) (cb : control_block) (h : heap) : heap :=
  Heap (<[c := cb]> (blocks h)) (events h) (next_addr h).

Definition drop_block (c : addr) (h : heap) : heap :=
  Heap (delete c (blocks h)) (events h ++ [Freed c]) (next_addr h).

Definition add_event (e : event) (h : heap) : heap :=
  Heap (blocks h) (events h ++ [e]) (next_addr h).

Definition log (e : event) : M unit := λ h, Ok (tt, add_event e h).

(** Access to the block a [control_block<T>*] points to. *)
Definition read_block (c : addr) : M control_block :=
  λ h, match blocks h !! c with
       | Some cb => Ok (cb, h)
       | None => Fault UseAfterFree
       end.

Definition write_block (c : addr) (cb : control_block) : M unit :=
  λ h, Ok (tt, set_block c cb h).

(** [strong_count.load(...)] *)
Definition strong_load (c : addr) : M Z :=
  cb ← read_block c; ret (strong_count cb).

(** [strong_count.fetch_add(d, ...)]: returns the value before the update. *)
Definition strong_fetch_add (c : addr) (d : Z) : M Z :=
  cb ← read_block c;
  write_block c (ControlBlock (wrap_int (strong_count cb + d)) (weak_count cb));;
  ret (strong_count cb).

Definition strong_fetch_sub (c : addr) (d : Z) : M Z :=
  cb ← read_block c;
  write_block c (ControlBlock (wrap_int (strong_count cb - d)) (weak_count cb));;
  ret (strong_count cb).

Definition weak_fetch_add (c : addr) (d : Z) : M Z :=
  cb ← read_block c;
  write_block c (ControlBlock (strong_count cb) (wrap_int (weak_count cb + d)));;
  ret (weak_count cb).

Definition weak_fetch_sub (c : addr) (d : Z) : M Z :=
  cb ← read_block c;
  write_block c (ControlBlock (strong_count cb) (wrap_int (weak_count cb - d)));;
  ret (weak_count cb).

(** [delete this] *)
Definition delete_this (c : addr) : M unit :=
  λ h, match blocks h !! c with
       | Some _ => Ok (tt, drop_block c h)
       | None => Fault UseAfterFree
       end.

(** [void add_weak()] *)
Definition add_weak (c : addr) : M unit :=
  weak_fetch_add c 1;; ret tt.

(** [void release_weak()] *)
Definition release_weak (c : addr) : M unit :=
  old ← weak_fetch_sub c 1;
  if decide (old = 1%Z) then delete_this c else ret tt.

(** *** my_shared_ptr<T> *)

Record my_shared_ptr := SharedPtr {
  ptr : option addr;
  control : option addr
}.

(** [my_shared_ptr() : ptr(nullptr), control(nullptr) {}] *)
Definition shared_default : my_shared_ptr := SharedPtr None None.

(** [explicit my_shared_ptr(T* p) : ptr(p), control(new control_block<T>())] *)
Definition shared_from_raw (p : option addr) : M my_shared_ptr :=
  λ h, let c := next_addr h in
       Ok (SharedPtr p (Some c),
           Heap (<[c := control_block_ctor]> (blocks h)) (events h) (S c)).

(** [my_shared_ptr(const my_shared_ptr& other)] *)
Definition shared_copy_ctor (other : my_shared_ptr) : M my_shared_ptr :=
  match control other with
  | Some c => strong_fetch_add c 1;; ret (SharedPtr (ptr other) (control other))
  | None => ret (SharedPtr (ptr other) (control other))
  end.

(** [my_shared_ptr(my_shared_ptr&& other)]: the new value and what is left
    in [other]. *)
Definition shared_move_ctor (other : my_shared_ptr)
  : my_shared_ptr * my_shared_ptr :=
  (SharedPtr (ptr other) (control other), SharedPtr None None).

(** [ptr->~T()] *)
Definition destroy_in_place (p : option addr) : M unit :=
  match p with
  | Some a => log (Destroyed a)
  | None => raise NullAccess
  end.

(** [void release()] *)
Definition release (this : my_shared_ptr) : M unit :=
  match control this with
  | Some c =>
      old ← strong_fetch_sub c 1;
      if decide (old = 1%Z) then destroy_in_place (ptr this);; release_weak c
      else ret tt
  | None => ret tt
  end.

(** [operator=(const my_shared_ptr& other)]; [same] is [this == &other]. *)
Definition shared_copy_assign (same : bool) (this other : my_shared_ptr)
  : M my_shared_ptr :=
  if same then ret this
  else
    release this;;
    match control other with
    | Some c => strong_fetch_add c 1;; ret (SharedPtr (ptr other) (control other))
    | None => ret (SharedPtr (ptr other) (control other))
    end.

(** [operator=(my_shared_ptr&& other)]: the new values of the assigned
    object and of [other]. *)
Definition shared_move_assign (same : bool) (this other : my_shared_ptr)
  : M (my_shared_ptr * my_shared_ptr) :=
  if same then ret (this, other)
  else
    release this;;
    ret (SharedPtr (ptr other) (control other), SharedPtr None None).

(** [~my_shared_ptr()] *)
Definition shared_dtor (this : my_shared_ptr) : M unit := release this.

(** [int use_count() const] *)
Definition use_count (this : my_shared_ptr) : M Z :=
  match control this with
  | Some c => strong_load c
  | None => ret 0%Z
  end.

(** [static my_shared_ptr<T> make_shared(Args&&... args)].  One raw
    allocation receives the control block at its start and the payload
    right behind it ([cb + 1]).  [ctor_throws] says whether [T]'s
    constructor exits by an exception; nothing in the function catches it,
    and the placement form of [new] releases no storage.  The allocation
    itself is taken to succeed. *)
Definition make_shared (ctor_throws : bool) (h : heap)
  : completion my_shared_ptr * heap :=
  let raw_memory := next_addr h in
  let cb := raw_memory in
  let h1 := Heap (<[cb := control_block_ctor]> (blocks h)) (events h)
                 (raw_memory + 2) in
  if ctor_throws then (Thrown, h1)
  else (Returned (SharedPtr (Some (cb + 1)) (Some cb)), h1).

(** *** my_weak_ptr<T>

    Its members are called [ptr] and [control] like those of my_shared_ptr;
    the record fields carry a prefix to keep the two apart. *)

Record my_weak_ptr := WeakPtr {
  wptr : option addr;
  wcontrol : option addr
}.

(** [my_weak_ptr() : ptr(nullptr), control(nullptr) {}] *)
Definition weak_default : my_weak_ptr := WeakPtr None None.

(** [my_weak_ptr(const my_shared_ptr<T>& shared)] *)
Definition weak_from_shared (shared : my_shared_ptr) : M my_weak_ptr :=
  match control shared with
  | Some c => add_weak c;; ret (WeakPtr (ptr shared) (control shared))
  | None => ret (WeakPtr (ptr shared) (control shared))
  end.

(** [my_weak_ptr(const my_weak_ptr& other)] *)
Definition weak_copy_ctor (other : my_weak_ptr) : M my_weak_ptr :=
  match wcontrol other with
  | Some c => add_weak c;; ret (WeakPtr (wptr other) (wcontrol other))
  | None => ret (WeakPtr (wptr other) (wcontrol other))
  end.

(** [void reset()]: the value left in the object is always the empty pair. *)
Definition reset (this : my_weak_ptr) : M my_weak_ptr :=
  match wcontrol this with
  | Some c => release_weak c;; ret (WeakPtr None None)
  | None => ret (WeakPtr None None)
  end.

(** [operator=(const my_shared_ptr<T>& shared)] *)
Definition weak_assign_shared (this : my_weak_ptr) (shared : my_shared_ptr)
  : M my_weak_ptr :=
  reset this;;
  match control shared with
  | Some c => add_weak c;; ret (WeakPtr (ptr shared) (control shared))
  | None => ret (WeakPtr (ptr shared) (control shared))
  end.

(** The class declares no assignment from another my_weak_ptr, so the
    compiler-generated one is used: it copies both members and touches no
    counter. *)
Definition weak_assign_weak (this other : my_weak_ptr) : my_weak_ptr :=
  WeakPtr (wptr other) (wcontrol other).

(** [~my_weak_ptr()] *)
Definition weak_dtor (this : my_weak_ptr) : M unit := reset this;; ret tt.

(** [int use_count() const] of my_weak_ptr *)
Definition weak_use_count (this : my_weak_ptr) : M Z :=
  match wcontrol this with
  | Some c => strong_load c
  | None => ret 0%Z
  end.

(** [bool expired() const] *)
Definition expired (this : my_weak_ptr) : M bool :=
  n ← weak_use_count this; ret (bool_decide (n = 0%Z)).

(** [my_weak_ptr::lock()] and [control_block::release_strong()] have no
    embedding.  Both are members of class templates that no compiler
    accepts once they are instantiated: [lock()] builds its result from the
    weak pointer itself, and my_shared_ptr has no constructor taking a
    my_weak_ptr; [release_strong()] casts a [control_block<T>*] to [T*]
    with [static_cast].  No program can call either one, and nothing in
    the two files does. *)

(** *** The release protocol in the words of the specification

    "[release_strong()]: atomically decrements [strong_count].  If the
    decrement transitions the count from 1 to 0, the caller must destroy
    the ManagedObject exactly once, then call [release_weak()]"; for a
    shared pointer this is "in-place destruction, not raw deallocation".
    A pointer without control block has nothing to release. *)
Definition release_strong_protocol (this : my_shared_ptr) : M unit :=
  λ h, match control this with
       | None => Ok (tt, h)
       | Some c =>
           match blocks h !! c with
           | None => Fault UseAfterFree
           | Some cb =>
               let decremented :=
                 set_block c (ControlBlock (strong_count cb - 1) (weak_count cb)) h in
               if decide (strong_count cb = 1%Z) then
                 match ptr this with
                 | Some p => release_weak c (add_event (Destroyed p) decremented)
                 | None => Fault NullAccess
                 end
               else Ok (tt, decremented)
           end
       end.

(** *** Client code: statements over named pointer variables

    A program state is the heap together with the shared and weak pointer
    objects that are in scope.  A statement names the objects it works on,
    which is what the self-assignment tests ([this != &other]) compare. *)

Record system := System {
  mem : heap;
  shared_vars : gmap nat my_shared_ptr;
  weak_vars : gmap nat my_weak_ptr
}.

Inductive stmt :=
  | SharedDefault (x : nat)                 (* my_shared_ptr<T> x; *)
  | SharedFromRaw (x : nat) (p : option addr)  (* my_shared_ptr<T> x(p); *)
  | MakeShared (x : nat) (ctor_throws : bool)  (* auto x = make_shared(..); *)
  | SharedCopy (x y : nat)                  (* my_shared_ptr<T> x(y); *)
  | SharedMove (x y : nat)                  (* my_shared_ptr<T> x(std::move(y)); *)
  | SharedCopyAssign (x y : nat)            (* x = y; *)
  | SharedMoveAssign (x y : nat)            (* x = std::move(y); *)
  | SharedEnd (x : nat)                     (* x goes out of scope *)
  | WeakDefault (w : nat)                   (* my_weak_ptr<T> w; *)
  | WeakFromShared (w x : nat)              (* my_weak_ptr<T> w(x); *)
  | WeakCopy (w v : nat)                    (* my_weak_ptr<T> w(v); *)
  | WeakAssignShared (w x : nat)            (* w = x; *)
  | WeakAssignWeak (w v : nat)              (* w = v; *)
  | WeakEnd (w : nat).                      (* w goes out of scope *)

Definition the_shared (s : system) (x : nat) (k : my_shared_ptr → result system)
  : result system :=
  match shared_vars s !! x with
  | Some v => k v
  | None => Fault NotInScope
  end.

Definition the_weak (s : system) (w : nat) (k : my_weak_ptr → result system)
  : result system :=
  match weak_vars s !! w with
  | Some v => k v
  | None => Fault NotInScope
  end.

Definition new_shared (s : system) (x : nat) (k : result system)
  : result system :=
  match shared_vars s !! x with
  | None => k
  | Some _ => Fault NotInScope
  end.

Definition new_weak (s : system) (w : nat) (k : result system)
  : result system :=
  match weak_vars s !! w with
  | None => k
  | Some _ => Fault NotInScope
  end.

(** Run a member function on the heap of [s] and continue with its result. *)
Definition call {A} (m : M A) (s : system) (k : A → heap → result system)
  : result system :=
  match m (mem s) with
  | Ok (a, h) => k a h
  | Fault f => Fault f
  end.

Definition exec (st : stmt) (s : system) : result system :=
  match st with
  | SharedDefault x =>
      new_shared s x
        (Ok (System (mem s) (<[x := shared_default]> (shared_vars s)) (weak_vars s)))
  | SharedFromRaw x p =>
      new_shared s x
        (call (shared_from_raw p) s (λ v h,
           Ok (System h (<[x := v]> (shared_vars s)) (weak_vars s))))
  | MakeShared x ctor_throws =>
      new_shared s x
        (match make_shared ctor_throws (mem s) with
         | (Returned v, h) => Ok (System h (<[x := v]> (shared_vars s)) (weak_vars s))
         | (Thrown, h) => Ok (System h (shared_vars s) (weak_vars s))
         end)
  | SharedCopy x y =>
      new_shared s x (the_shared s y (λ other,
        call (shared_copy_ctor other) s (λ v h,
          Ok (System h (<[x := v]> (shared_vars s)) (weak_vars s)))))
  | SharedMove x y =>
      new_shared s x (the_shared s y (λ other,
        let '(v, moved) := shared_move_ctor other in
        Ok (System (mem s) (<[x := v]> (<[y := moved]> (shared_vars s)))
                   (weak_vars s))))
  | SharedCopyAssign x y =>
      the_shared s x (λ this, the_shared s y (λ other,
        call (shared_copy_assign (bool_decide (x = y)) this other) s (λ v h,
          Ok (System h (<[x := v]> (shared_vars s)) (weak_vars s)))))
  | SharedMoveAssign x y =>
      the_shared s x (λ this, the_shared s y (λ other,
        call (shared_move_assign (bool_decide (x = y)) this other) s (λ r h,
          Ok (System h (<[x := r.1]> (<[y := r.2]> (shared_vars s)))
                     (weak_vars s)))))
  | SharedEnd x =>
      the_shared s x (λ this,
        call (shared_dtor this) s (λ _ h,
          Ok (System h (delete x (shared_vars s)) (weak_vars s))))
  | WeakDefault w =>
      new_weak s w
        (Ok (System (mem s) (shared_vars s) (<[w := weak_default]> (weak_vars s))))
  | WeakFromShared w x =>
      new_weak s w (the_shared s x (λ shared,
        call (weak_from_shared shared) s (λ v h,
          Ok (System h (shared_vars s) (<[w := v]> (weak_vars s))))))
  | WeakCopy w v =>
      new_weak s w (the_weak s v (λ other,
        call (weak_copy_ctor other) s (λ r h,
          Ok (System h (shared_vars s) (<[w := r]> (weak_vars s))))))
  | WeakAssignShared w x =>
      the_weak s w (λ this, the_shared s x (λ shared,
        call (weak_assign_shared this shared) s (λ r h,
          Ok (System h (shared_vars s) (<[w := r]> (weak_vars s))))))
  | WeakAssignWeak w v =>
      the_weak s w (λ this, the_weak s v (λ other,
        Ok (System (mem s) (shared_vars s)
                   (<[w := weak_assign_weak this other]> (weak_vars s)))))
  | WeakEnd w =>
      the_weak s w (λ this,
        call (weak_dtor this) s (λ _ h,
          Ok (System h (shared_vars s) (delete w (weak_vars s)))))
  end.

Fixpoint run (prog : list stmt) (s : system) : result system :=
  match prog with
  | [] => Ok s
  | st :: rest =>
      match exec st s with
      | Ok s' => run rest s'
      | Fault f => Fault f
      end
  end.

Definition empty_heap : heap := Heap ∅ [] 0.
Definition start : system := System empty_heap ∅ ∅.

(** How often the payload at [p] has had its destructor run, and how often
    the control block at [c] has been deleted. *)
Definition destructions (p : addr) (h : heap) : nat :=
  length (filter (λ e, e = Destroyed p ∨ e = Deleted p) (events h)).

Definition block_frees (c : addr) (h : heap) : nat :=
  length (filter (λ e, e = Freed c) (events h)).

(** The shared pointer objects in scope that refer to the block at [c]. *)
Definition owners (c : addr) (vars : gmap nat my_shared_ptr) : nat :=
  size (filter (λ kv, control kv.2 = Some c) vars).

(** One when the shared pointer [v] refers to the block at [c], else zero. *)
Definition refers (c : addr) (v : my_shared_ptr) : nat :=
  if decide (control v = Some c) then 1 else 0.

(** States of well-behaved client code.  Every allocated block, and every
    block that a shared pointer in scope names, was allocated earlier; and
    the strong count of an allocated block is the number of shared pointers
    in scope that refer to it, or one more than that (the block of a
    [make_shared] whose payload constructor threw keeps the count 1 it was
    constructed with and has no owner at all). *)
Record consistent (s : system) : Prop := Consistent {
  blocks_below :
    ∀ c cb, blocks (mem s) !! c = Some cb → c < next_addr (mem s);
  shared_below :
    ∀ x v c, shared_vars s !! x = Some v → control v = Some c →
             c < next_addr (mem s);
  strong_owners :
    ∀ c cb, blocks (mem s) !! c = Some cb →
      (Z.of_nat (owners c (shared_vars s)) ≤ strong_count cb
       ≤ Z.of_nat (owners c (shared_vars s)) + 1)%Z
}.

(** The payload managed through the block at [c] is gone: the block was
    allocated at some point, and by now it is deleted or its strong count
    is 0. *)
Definition object_gone (c : addr) (s : system) : Prop :=
  c < next_addr (mem s) ∧
  ∀ cb, blocks (mem s) !! c = Some cb → strong_count cb = 0%Z.

(** A statement that allocates nothing moves the strong count of each block
    by [d c] (-1, 0 or 1): the surviving blocks carry the moved count, and
    the number of owners moves along. *)
Record moves (d : nat → Z) (s s' : system) : Prop := Moves {
  moves_next : next_addr (mem s') = next_addr (mem s);
  moves_blocks :
    ∀ c cb', blocks (mem s') !! c = Some cb' →
      ∃ cb, blocks (mem s) !! c = Some cb ∧
            strong_count cb' =
              if decide (d c = 0%Z) then strong_count cb
              else wrap_int (strong_count cb + d c);
  moves_owners :
    ∀ c, Z.of_nat (owners c (shared_vars s')) =
         (Z.of_nat (owners c (shared_vars s)) + d c)%Z;
  moves_unit : ∀ c, d c = 1%Z ∨ d c = 0%Z ∨ d c = (-1)%Z;
  moves_up :
    ∀ c, d c = 1%Z →
      ∃ cb, blocks (mem s) !! c = Some cb ∧
            (1 ≤ owners c (shared_vars s) ∨ strong_count cb ≠ 0%Z)
}.

(** What a member function does to the strong counts: it allocates
    nothing, and every block that is there afterwards was there before,
    its strong count changed by [f]. *)
Definition strong_effect (f : nat → Z → Z) (h h' : heap) : Prop :=
  next_addr h' = next_addr h ∧
  ∀ c cb', blocks h' !! c = Some cb' →
    ∃ cb, blocks h !! c = Some cb ∧ strong_count cb' = f c (strong_count cb).

(** A step keeps the state consistent and keeps gone payloads gone. *)
Definition preserved (s s' : system) : Prop :=
  consistent s' ∧ ∀ c, object_gone c s → object_gone c s'.

(** Two more shared pointers can come into scope before a strong count
    reaches [INT_MAX]. *)
Definition in_bounds (s : system) : Prop :=
  (Z.of_nat (size (shared_vars s)) + 2 ≤ INT_MAX)%Z.

(** The round trip of the specification: one [make_shared], [n] clones of
    it, [k] weak pointers on it, then the shared pointers go out of scope in
    the given order. *)
Definition clones (n : nat) : list stmt :=
  map (λ i, SharedCopy (S i) 0) (seq 0 n).

Definition observers (k : nat) : list stmt :=
  map (λ j, WeakFromShared j 0) (seq 0 k).

Definition scope_exits (order : list nat) : list stmt :=
  map SharedEnd order.

Definition round_trip (n k : nat) (order : list nat) : list stmt :=
  MakeShared 0 false :: clones n ++ observers k ++ scope_exits order.

(** The heap once [j] of [m] owners are gone, with [k] weak pointers. *)
Definition after_exits (m k j : nat) : heap :=
  if decide (j < m) then
    Heap {[ 0 := ControlBlock (Z.of_nat (m - j)) (Z.of_nat k) ]} [] 2
  else if decide (k = 1) then Heap ∅ [Destroyed 1; Freed 0] 2
  else Heap {[ 0 := ControlBlock 0 (Z.of_nat k - 1) ]} [Destroyed 1] 2.

(** [T* operator->() const { return ptr; }] *)
Definition shared_arrow (this : my_shared_ptr) : option addr := ptr this.

(** The control blocks a statement can reach: those of the pointers it
    names. *)
Definition shared_block (s : system) (x : nat) : option addr :=
  v ← shared_vars s !! x; control v.

Definition weak_block (s : system) (w : nat) : option addr :=
  v ← weak_vars s !! w; wcontrol v.

Definition reach (st : stmt) (s : system) : list (option addr) :=
  match st with
  | SharedDefault _ | SharedFromRaw _ _ | MakeShared _ _ | WeakDefault _ => []
  | SharedCopy x y | SharedMove x y | SharedCopyAssign x y
  | SharedMoveAssign x y => [shared_block s x; shared_block s y]
  | SharedEnd x => [shared_block s x]
  | WeakFromShared w x | WeakAssignShared w x => [weak_block s w; shared_block s x]
  | WeakCopy w v | WeakAssignWeak w v => [weak_block s w; weak_block s v]
  | WeakEnd w => [weak_block s w]
  end.

(** Statements whose payload constructor throws. *)
Definition may_throw (st : stmt) : bool :=
  match st with
  | MakeShared _ true => true
  | _ => false
  end.

(** Statements that adopt a raw pointer supplied by the caller. *)
Definition adopts_raw (st : stmt) : bool :=
  match st with
  | SharedFromRaw _ _ => true
  | _ => false
  end.

(** The strong count of every allocated block is the number of shared
    pointers in scope that refer to it. *)
Definition counted (s : system) : Prop :=
  ∀ c cb, blocks (mem s) !! c = Some cb →
          strong_count cb = Z.of_nat (owners c (shared_vars s)).

(** Log entries for the deletion of a control block. *)
Definition is_free (e : event) : Prop := ∃ c, e = Freed c.

(** Every pointer in scope that has a control block points to the payload
    stored right behind that block, as [make_shared] sets it up. *)
Definition paired (s : system) : Prop :=
  (∀ x v c, shared_vars s !! x = Some v → control v = Some c →
            ptr v = Some (c + 1)) ∧
  (∀ j w c, weak_vars s !! j = Some w → wcontrol w = Some c →
            wptr w = Some (c + 1)).

(** Each payload has been destroyed at most once, and one that has been
    destroyed is the payload of a block that is gone. *)
Definition destroyed_once (s : system) : Prop :=
  ∀ p, destructions p (mem s) = 0 ∨
       (destructions p (mem s) = 1 ∧ ∃ c, p = c + 1 ∧ object_gone c s).

End shared_and_weak.

Module unique_ptr.

(** *** my_unique_ptr<T> *)

Record my_unique_ptr := UniquePtr {
  rawPtr : option addr
}.

(** The objects created by [new T] that have not been deleted, and the
    objects whose destructor has run, oldest first. *)
Record heap := Heap {
  live : gset nat;
  destroyed : list addr;
  next_addr : addr
}.

(** [delete p]: nothing for a null pointer; otherwise the destructor runs
    and the storage is returned.  Deleting an object twice is undefined. *)
Definition delete_obj (p : option addr) (h : heap) : result heap :=
  match p with
  | None => Ok h
  | Some a =>
      if decide (a ∈ live h)
      then Ok (Heap (live h ∖ {[a]}) (destroyed h ++ [a]) (next_addr h))
      else Fault UseAfterFree
  end.

(** [my_unique_ptr() = default], with [T* rawPtr{}] *)
Definition unique_default : my_unique_ptr := UniquePtr None.

(** [explicit my_unique_ptr(T* ptr) : rawPtr{ptr}] *)
Definition unique_from_raw (p : option addr) : my_unique_ptr := UniquePtr p.

(** [my_unique_ptr(my_unique_ptr&& src)]: the new object and what is left
    in [src]. *)
Definition move_ctor (src : my_unique_ptr) : my_unique_ptr * my_unique_ptr :=
  (UniquePtr (rawPtr src), UniquePtr None).

(** [operator=(my_unique_ptr&& src)]; [same] is [this == &src].  Returns
    the new values of the assigned object and of [src]. *)
Definition move_assign (same : bool) (this src : my_unique_ptr) (h : heap)
  : result (my_unique_ptr * my_unique_ptr * heap) :=
  if same then Ok (this, src, h)
  else
    match delete_obj (rawPtr this) h with
    | Ok h' => Ok (UniquePtr (rawPtr src), UniquePtr None, h')
    | Fault f => Fault f
    end.

(** [~my_unique_ptr()] *)
Definition unique_dtor (this : my_unique_ptr) (h : heap) : result heap :=
  delete_obj (rawPtr this) h.

(** [make_unique]: [new T(args...)].  When the constructor throws, the
    new-expression itself returns the storage before the exception leaves. *)
Definition make_unique (ctor_throws : bool) (h : heap)
  : completion my_unique_ptr * heap :=
  let a := next_addr h in
  if ctor_throws then (Thrown, Heap (live h) (destroyed h) (S a))
  else (Returned (UniquePtr (Some a)),
        Heap ({[a]} ∪ live h) (destroyed h) (S a)).

Record system := System {
  mem : heap;
  vars : gmap nat my_unique_ptr
}.

Inductive stmt :=
  | Default (x : nat)              (* my_unique_ptr<T> x; *)
  | Make (x : nat) (ctor_throws : bool)  (* auto x = make_unique(..); *)
  | Move (x y : nat)               (* my_unique_ptr<T> x(std::move(y)); *)
  | MoveAssign (x y : nat)         (* x = std::move(y); *)
  | End_ (x : nat).                (* x goes out of scope *)

Definition exec (st : stmt) (s : system) : result system :=
  match st with
  | Default x =>
      match vars s !! x with
      | None => Ok (System (mem s) (<[x := unique_default]> (vars s)))
      | Some _ => Fault NotInScope
      end
  | Make x ctor_throws =>
      match vars s !! x with
      | None =>
          match make_unique ctor_throws (mem s) with
          | (Returned v, h) => Ok (System h (<[x := v]> (vars s)))
          | (Thrown, h) => Ok (System h (vars s))
          end
      | Some _ => Fault NotInScope
      end
  | Move x y =>
      match vars s !! x, vars s !! y with
      | None, Some src =>
          let '(v, moved) := move_ctor src in
          Ok (System (mem s) (<[x := v]> (<[y := moved]> (vars s))))
      | _, _ => Fault NotInScope
      end
  | MoveAssign x y =>
      match vars s !! x, vars s !! y with
      | Some this, Some src =>
          match move_assign (bool_decide (x = y)) this src (mem s) with
          | Ok (v, moved, h) => Ok (System h (<[x := v]> (<[y := moved]> (vars s))))
          | Fault f => Fault f
          end
      | _, _ => Fault NotInScope
      end
  | End_ x =>
      match vars s !! x with
      | Some this =>
          match unique_dtor this (mem s) with
          | Ok h => Ok (System h (delete x (vars s)))
          | Fault f => Fault f
          end
      | None => Fault NotInScope
      end
  end.

Fixpoint run (prog : list stmt) (s : system) : result system :=
  match prog with
  | [] => Ok s
  | st :: rest =>
      match exec st s with
      | Ok s' => run rest s'
      | Fault f => Fault f
      end
  end.

(** How often the destructor of the object at [p] has run. *)
Definition destructions (p : addr) (h : heap) : nat :=
  length (filter (λ a, a = p) (destroyed h)).

(** [T* operator->() { return rawPtr; }] *)
Definition arrow (this : my_unique_ptr) : option addr := rawPtr this.

(** [T& operator*() { return *rawPtr; }]: the object referred to.  Going
    through a null pointer, or to an object that was deleted, is
    undefined. *)
Definition star (this : my_unique_ptr) (h : heap) : result addr :=
  match rawPtr this with
  | None => Fault NullAccess
  | Some a => if decide (a ∈ live h) then Ok a else Fault UseAfterFree
  end.

Definition empty_heap : heap := Heap ∅ [] 0.
Definition start : system := System empty_heap ∅.

(** Exclusive ownership.  Every pointer in scope that holds a handle holds
    the handle of a live object, no two pointers hold the same handle,
    every live object is held by some pointer in scope, and no object has
    been destroyed twice or is live after its destruction. *)
Record exclusive (s : system) : Prop := Exclusive {
  owned_live :
    ∀ x a, vars s !! x = Some (UniquePtr (Some a)) → a ∈ live (mem s);
  owned_once :
    ∀ x y a, vars s !! x = Some (UniquePtr (Some a)) →
             vars s !! y = Some (UniquePtr (Some a)) → x = y;
  live_owned :
    ∀ a, a ∈ live (mem s) → ∃ x, vars s !! x = Some (UniquePtr (Some a));
  live_below : ∀ a, a ∈ live (mem s) → a < next_addr (mem s);
  destroyed_once : NoDup (destroyed (mem s));
  destroyed_dead :
    ∀ a, a ∈ destroyed (mem s) →
         (a ∉ live (mem s)) ∧ a < next_addr (mem s)
}.

End unique_ptr.

(** * Properties of my_shared_ptr and my_weak_ptr *)

Section shared_and_weak_facts.
Import shared_and_weak.

Implicit Types (h : heap) (c p : nat) (cb : control_block) (z : Z).

Lemma wrap_int_id z : (INT_MIN ≤ z ≤ INT_MAX)%Z → wrap_int z = z.
Proof.
  unfold wrap_int, INT_MIN, INT_MAX. intros Hz.
  rewrite Z.mod_small; lia.
Qed.

Lemma wrap_int_range z : (INT_MIN ≤ wrap_int z ≤ INT_MAX)%Z.
Proof.
  unfold wrap_int, INT_MIN, INT_MAX.
  pose proof (Z.mod_pos_bound (z + 2147483648) 4294967296). lia.
Qed.

(** ** What each access does to the heap *)

Lemma strong_load_eq c h cb :
  blocks h !! c = Some cb → strong_load c h = Ok (strong_count cb, h).
Proof.
  intros Hc. unfold strong_load, mbind, M_bind, bind, read_block.
  by rewrite Hc.
Qed.

Lemma strong_load_freed c h :
  blocks h !! c = None → strong_load c h = Fault UseAfterFree.
Proof.
  intros Hc. unfold strong_load, mbind, M_bind, bind, read_block.
  by rewrite Hc.
Qed.

Lemma strong_fetch_add_eq c d h cb :
  blocks h !! c = Some cb →
  strong_fetch_add c d h =
    Ok (strong_count cb, set_block c (ControlBlock (wrap_int (strong_count cb + d)) (weak_count cb)) h).
Proof.
  intros Hc. unfold strong_fetch_add, mbind, M_bind, bind, read_block.
  by rewrite Hc.
Qed.

Lemma strong_fetch_sub_eq c d h cb :
  blocks h !! c = Some cb →
  strong_fetch_sub c d h =
    Ok (strong_count cb, set_block c (ControlBlock (wrap_int (strong_count cb - d)) (weak_count cb)) h).
Proof.
  intros Hc. unfold strong_fetch_sub, mbind, M_bind, bind, read_block.
  by rewrite Hc.
Qed.

Lemma weak_fetch_add_eq c d h cb :
  blocks h !! c = Some cb →
  weak_fetch_add c d h =
    Ok (weak_count cb, set_block c (ControlBlock (strong_count cb) (wrap_int (weak_count cb + d))) h).
Proof.
  intros Hc. unfold weak_fetch_add, mbind, M_bind, bind, read_block.
  by rewrite Hc.
Qed.

Lemma weak_fetch_sub_eq c d h cb :
  blocks h !! c = Some cb →
  weak_fetch_sub c d h =
    Ok (weak_count cb, set_block c (ControlBlock (strong_count cb) (wrap_int (weak_count cb - d))) h).
Proof.
  intros Hc. unfold weak_fetch_sub, mbind, M_bind, bind, read_block.
  by rewrite Hc.
Qed.

(** ** Reporting the strong count *)

(** C9. [use_count()] of a shared pointer and of a weak pointer returns the
    strong count stored in the control block the pointer refers to, leaves
    the heap as it is, and returns 0 when the pointer has no control
    block. *)
Theorem use_count_reports_strong_count :
  (∀ (this : my_shared_ptr) h c cb,
      control this = Some c → blocks h !! c = Some cb →
      use_count this h = Ok (strong_count cb, h)) ∧
  (∀ (this : my_weak_ptr) h c cb,
      wcontrol this = Some c → blocks h !! c = Some cb →
      weak_use_count this h = Ok (strong_count cb, h)) ∧
  (∀ (this : my_shared_ptr) h,
      control this = None → use_count this h = Ok (0%Z, h)) ∧
  (∀ (this : my_weak_ptr) h,
      wcontrol this = None → weak_use_count this h = Ok (0%Z, h)).
Proof.
  repeat split.
  - intros this h c cb Hctl Hcb. unfold use_count. rewrite Hctl.
    by apply strong_load_eq.
  - intros this h c cb Hctl Hcb. unfold weak_use_count. rewrite Hctl.
    by apply strong_load_eq.
  - intros this h Hctl. unfold use_count. by rewrite Hctl.
  - intros this h Hctl. unfold weak_use_count. by rewrite Hctl.
Qed.

Lemma use_count_reports_strong_count_witness :
  let h := Heap {[ 0 := ControlBlock 3 1 ]} [] 2 in
  use_count (SharedPtr (Some 1) (Some 0)) h = Ok (3%Z, h) ∧
  weak_use_count (WeakPtr (Some 1) (Some 0)) h = Ok (3%Z, h) ∧
  use_count shared_default h = Ok (0%Z, h) ∧
  weak_use_count weak_default h = Ok (0%Z, h).
Proof.
  intros h.
  destruct use_count_reports_strong_count as (Hs & Hw & Hs0 & Hw0).
  split; [| split; [| split]].
  - apply (Hs (SharedPtr (Some 1) (Some 0)) h 0 (ControlBlock 3 1));
      reflexivity.
  - apply (Hw (WeakPtr (Some 1) (Some 0)) h 0 (ControlBlock 3 1));
      reflexivity.
  - apply Hs0; reflexivity.
  - apply Hw0; reflexivity.
Defined.

(** ** [expired()] *)

Lemma expired_eq (this : my_weak_ptr) h c cb :
  wcontrol this = Some c → blocks h !! c = Some cb →
  expired this h = Ok (bool_decide (strong_count cb = 0%Z), h).
Proof.
  intros Hctl Hcb. unfold expired, mbind, M_bind, bind, weak_use_count.
  rewrite Hctl. by rewrite (strong_load_eq c h cb Hcb).
Qed.

Lemma expired_empty (this : my_weak_ptr) h :
  wcontrol this = None → expired this h = Ok (true, h).
Proof.
  intros Hctl. unfold expired, mbind, M_bind, bind, weak_use_count.
  by rewrite Hctl.
Qed.

Lemma expired_freed (this : my_weak_ptr) h c :
  wcontrol this = Some c → blocks h !! c = None →
  expired this h = Fault UseAfterFree.
Proof.
  intros Hctl Hcb. unfold expired, mbind, M_bind, bind, weak_use_count.
  rewrite Hctl. by rewrite (strong_load_freed c h Hcb).
Qed.

(** ** Lifetime of the control block *)

(** C1. Three runs on which the control block is not deleted at the right
    time.  (a) One weak pointer is created and goes out of scope while the
    shared pointer is alive: the block is deleted under the shared pointer,
    whose own destruction then faults.  (b) No weak pointer ever exists: the
    block is never deleted.  (c) One weak pointer exists when the last
    shared pointer goes: the block is deleted in that very release and the
    weak pointer is left referring to it. *)
Theorem control_block_lifetime_runs :
  (∃ s, run [MakeShared 0 false; WeakFromShared 0 0; WeakEnd 0] start = Ok s ∧
        shared_vars s !! 0 = Some (SharedPtr (Some 1) (Some 0)) ∧
        events (mem s) = [Freed 0] ∧
        blocks (mem s) !! 0 = None ∧
        exec (SharedEnd 0) s = Fault UseAfterFree) ∧
  (∃ s, run [MakeShared 0 false; SharedEnd 0] start = Ok s ∧
        shared_vars s = ∅ ∧ weak_vars s = ∅ ∧
        events (mem s) = [Destroyed 1] ∧
        block_frees 0 (mem s) = 0 ∧
        blocks (mem s) !! 0 = Some (ControlBlock 0 (-1))) ∧
  (∃ s, run [MakeShared 0 false; WeakFromShared 0 0; SharedEnd 0] start = Ok s ∧
        weak_vars s !! 0 = Some (WeakPtr (Some 1) (Some 0)) ∧
        events (mem s) = [Destroyed 1; Freed 0] ∧
        blocks (mem s) !! 0 = None ∧
        expired (WeakPtr (Some 1) (Some 0)) (mem s) = Fault UseAfterFree ∧
        exec (WeakEnd 0) s = Fault UseAfterFree).
Proof.
  split; [| split]; eexists; (split; [vm_compute; reflexivity |]);
    repeat split; vm_compute; reflexivity.
Qed.

(** C7. Two runs on which [expired()] does not stay true.  (a) The scenario
    of the specification: a shared pointer is made, cloned, the clone
    destroyed, a weak pointer made from the original, the original
    destroyed.  Before the last step [expired()] answers false; the last
    release deletes the control block together with the payload, and
    [expired()] on the weak pointer then reads the strong count of a
    deleted block.  (b) With two weak pointers [expired()] answers true
    once the shared pointer is gone; after the other weak pointer has gone
    out of scope the block is deleted under the remaining one, and the
    same call reads a deleted block. *)
Theorem expired_reads_deleted_block :
  (∃ s s', run [MakeShared 0 false; SharedCopy 1 0; SharedEnd 1;
                WeakFromShared 0 0] start = Ok s ∧
           weak_vars s !! 0 = Some (WeakPtr (Some 1) (Some 0)) ∧
           expired (WeakPtr (Some 1) (Some 0)) (mem s) = Ok (false, mem s) ∧
           exec (SharedEnd 0) s = Ok s' ∧
           shared_vars s' = ∅ ∧
           weak_vars s' !! 0 = Some (WeakPtr (Some 1) (Some 0)) ∧
           events (mem s') = [Destroyed 1; Freed 0] ∧
           blocks (mem s') !! 0 = None ∧
           expired (WeakPtr (Some 1) (Some 0)) (mem s') = Fault UseAfterFree) ∧
  (∃ s s', run [MakeShared 0 false; WeakFromShared 0 0; WeakFromShared 1 0;
                SharedEnd 0] start = Ok s ∧
           weak_vars s !! 0 = Some (WeakPtr (Some 1) (Some 0)) ∧
           blocks (mem s) !! 0 = Some (ControlBlock 0 1) ∧
           expired (WeakPtr (Some 1) (Some 0)) (mem s) = Ok (true, mem s) ∧
           exec (WeakEnd 1) s = Ok s' ∧
           weak_vars s' !! 0 = Some (WeakPtr (Some 1) (Some 0)) ∧
           events (mem s') = [Destroyed 1; Freed 0] ∧
           blocks (mem s') !! 0 = None ∧
           expired (WeakPtr (Some 1) (Some 0)) (mem s') = Fault UseAfterFree).
Proof.
  split; eexists; eexists; (split; [vm_compute; reflexivity |]);
    repeat split; vm_compute; reflexivity.
Qed.

(** ** The factory *)

(** C6. When the payload's constructor throws inside [make_shared], the
    exception reaches the caller and the allocation that already holds the
    control block stays allocated; in a program that does nothing else, the
    block is there afterwards and no pointer refers to it. *)
Theorem make_shared_throw_keeps_allocation :
  (∀ h, ∃ h',
      make_shared true h = (Thrown, h') ∧
      blocks h' !! next_addr h = Some control_block_ctor ∧
      events h' = events h) ∧
  (∃ s, run [MakeShared 0 true] start = Ok s ∧
        shared_vars s = ∅ ∧ weak_vars s = ∅ ∧
        events (mem s) = [] ∧
        blocks (mem s) !! 0 = Some (ControlBlock 1 0)).
Proof.
  split.
  - intros h. eexists. split; [reflexivity |]. simpl. split; [| done].
    apply lookup_insert_eq.
  - eexists. split; [vm_compute; reflexivity |].
    repeat split; vm_compute; reflexivity.
Qed.

(** ** Effects of the counting functions *)

Ltac heap_simpl := unfold drop_block, set_block, add_event; simpl.

Lemma add_weak_eq c h cb :
  blocks h !! c = Some cb →
  add_weak c h =
    Ok (tt, set_block c (ControlBlock (strong_count cb) (wrap_int (weak_count cb + 1))) h).
Proof.
  intros Hc. unfold add_weak, mbind, M_bind, bind.
  by rewrite (weak_fetch_add_eq c 1 h cb Hc).
Qed.

Lemma add_weak_freed c h :
  blocks h !! c = None → add_weak c h = Fault UseAfterFree.
Proof.
  intros Hc.
  unfold add_weak, weak_fetch_add, mbind, M_bind, bind, read_block.
  by rewrite Hc.
Qed.

Lemma drop_set_block c cb h : drop_block c (set_block c cb h) = drop_block c h.
Proof. unfold drop_block, set_block. simpl. by rewrite delete_insert_eq. Qed.

Lemma release_weak_eq c h cb :
  blocks h !! c = Some cb →
  release_weak c h =
    Ok (tt, if decide (weak_count cb = 1%Z) then drop_block c h
            else set_block c (ControlBlock (strong_count cb)
                                           (wrap_int (weak_count cb - 1))) h).
Proof.
  intros Hc. unfold release_weak, mbind, M_bind, bind.
  rewrite (weak_fetch_sub_eq c 1 h cb Hc).
  destruct (decide (weak_count cb = 1%Z)); [| done].
  unfold delete_this. simpl. rewrite lookup_insert_eq.
  by rewrite drop_set_block.
Qed.

Lemma release_weak_freed c h :
  blocks h !! c = None → release_weak c h = Fault UseAfterFree.
Proof.
  intros Hc.
  unfold release_weak, weak_fetch_sub, mbind, M_bind, bind, read_block.
  by rewrite Hc.
Qed.

(** The release of a shared pointer that is not the last owner only
    decrements. *)
Lemma release_not_last (this : my_shared_ptr) h c cb :
  control this = Some c → blocks h !! c = Some cb →
  strong_count cb ≠ 1%Z →
  release this h =
    Ok (tt, set_block c (ControlBlock (wrap_int (strong_count cb - 1))
                                      (weak_count cb)) h).
Proof.
  intros Hctl Hc Hne. unfold release. rewrite Hctl.
  unfold mbind, M_bind, bind. rewrite (strong_fetch_sub_eq c 1 h cb Hc).
  by destruct (decide (strong_count cb = 1%Z)).
Qed.

(** The release of the last owner runs the payload's destructor in place
    and then gives up one weak count, which deletes the block exactly when
    the weak count it finds is 1. *)
Lemma release_last (this : my_shared_ptr) h c cb p :
  control this = Some c → ptr this = Some p → blocks h !! c = Some cb →
  strong_count cb = 1%Z →
  release this h =
    Ok (tt, if decide (weak_count cb = 1%Z)
            then drop_block c (add_event (Destroyed p) h)
            else set_block c (ControlBlock 0 (wrap_int (weak_count cb - 1)))
                   (add_event (Destroyed p) h)).
Proof.
  intros Hctl Hp Hc Hone. unfold release. rewrite Hctl, Hp.
  unfold mbind, M_bind, bind. rewrite (strong_fetch_sub_eq c 1 h cb Hc).
  rewrite decide_True by done. simpl.
  rewrite (release_weak_eq c _ (ControlBlock (wrap_int (strong_count cb - 1))
                                             (weak_count cb)))
    by (simpl; apply lookup_insert_eq).
  simpl. rewrite Hone. change (wrap_int (1 - 1)) with 0%Z.
  destruct (decide (weak_count cb = 1%Z)).
  - unfold drop_block, add_event, set_block. simpl. by rewrite delete_insert_eq.
  - unfold set_block, add_event. simpl. by rewrite insert_insert_eq.
Qed.

Lemma release_empty (this : my_shared_ptr) h :
  control this = None → release this h = Ok (tt, h).
Proof. intros Hctl. unfold release. by rewrite Hctl. Qed.

Lemma release_freed (this : my_shared_ptr) h c :
  control this = Some c → blocks h !! c = None →
  release this h = Fault UseAfterFree.
Proof.
  intros Hctl Hc. unfold release. rewrite Hctl.
  unfold strong_fetch_sub, mbind, M_bind, bind, read_block. by rewrite Hc.
Qed.

(** A release touches no control block but the one its pointer refers to. *)
Lemma release_frame (this : my_shared_ptr) h u h' c' :
  release this h = Ok (u, h') → control this ≠ Some c' →
  blocks h' !! c' = blocks h !! c'.
Proof.
  intros Hrel Hne. destruct (control this) as [c|] eqn:Hctl.
  - assert (c ≠ c') by congruence.
    destruct (blocks h !! c) as [cb|] eqn:Hc.
    + destruct (decide (strong_count cb = 1%Z)) as [Hone|Hone].
      * destruct (ptr this) as [p|] eqn:Hp.
        -- rewrite (release_last this h c cb p Hctl Hp Hc Hone) in Hrel.
           injection Hrel as <- <-.
           destruct (decide (weak_count cb = 1%Z)); heap_simpl.
           ++ by rewrite lookup_delete_ne.
           ++ by rewrite lookup_insert_ne.
        -- unfold release in Hrel. rewrite Hctl, Hp in Hrel.
           unfold mbind, M_bind, bind in Hrel.
           rewrite (strong_fetch_sub_eq c 1 h cb Hc) in Hrel.
           rewrite decide_True in Hrel by done. discriminate.
      * rewrite (release_not_last this h c cb Hctl Hc Hone) in Hrel.
        injection Hrel as <- <-. heap_simpl. by rewrite lookup_insert_ne.
    + by rewrite (release_freed this h c Hctl Hc) in Hrel.
  - rewrite (release_empty this h Hctl) in Hrel. by injection Hrel as <- <-.
Qed.

(** ** The release protocol *)

(** C5. The release of a shared pointer is the release protocol of the
    specification, and the destructor and both assignments go through it:
    the strong count goes down by one; when that takes it from 1 to 0 the
    payload's destructor is run in place, once, and [release_weak()] is
    called next (deleting the block when it finds the weak count 1);
    otherwise nothing else happens.  No payload storage is deallocated.
    (For a strong count within [int] that the decrement does not take
    below [INT_MIN].) *)
Theorem release_follows_strong_protocol (this : my_shared_ptr) h :
  (∀ c cb, control this = Some c → blocks h !! c = Some cb →
           (INT_MIN < strong_count cb ≤ INT_MAX)%Z) →
  release this h = release_strong_protocol this h ∧
  shared_dtor this h = release_strong_protocol this h ∧
  (∀ other, shared_copy_assign false this other h
            = (release_strong_protocol this;; shared_copy_ctor other) h) ∧
  (∀ other, shared_move_assign false this other h
            = (release_strong_protocol this;; ret (shared_move_ctor other)) h) ∧
  (∀ c cb p, control this = Some c → ptr this = Some p →
     blocks h !! c = Some cb →
     ∃ h', release this h = Ok (tt, h') ∧
           events h' = events h ++
             (if decide (strong_count cb = 1%Z)
              then Destroyed p ::
                   (if decide (weak_count cb = 1%Z) then [Freed c] else [])
              else []) ∧
           (∀ cb', blocks h' !! c = Some cb' →
                   strong_count cb' = (strong_count cb - 1)%Z)).
Proof.
  intros Hrange.
  assert (Hrel : release this h = release_strong_protocol this h).
  { unfold release_strong_protocol.
    destruct (control this) as [c|] eqn:Hctl;
      [| exact (release_empty this h Hctl)].
    destruct (blocks h !! c) as [cb|] eqn:Hc;
      [| exact (release_freed this h c Hctl Hc)].
    pose proof (Hrange c cb eq_refl Hc) as Hcb.
    destruct (decide (strong_count cb = 1%Z)) as [Hone|Hone].
    - destruct (ptr this) as [p|] eqn:Hp.
      + rewrite (release_last this h c cb p Hctl Hp Hc Hone).
        rewrite (release_weak_eq c _ (ControlBlock (strong_count cb - 1)
                                                   (weak_count cb)))
          by (simpl; apply lookup_insert_eq).
        simpl. rewrite Hone. change (1 - 1)%Z with 0%Z.
        destruct (decide (weak_count cb = 1%Z)); heap_simpl.
        * by rewrite delete_insert_eq.
        * by rewrite insert_insert_eq.
      + unfold release. rewrite Hctl, Hp.
        unfold mbind, M_bind, bind.
        rewrite (strong_fetch_sub_eq c 1 h cb Hc).
        by rewrite decide_True by done.
    - rewrite (release_not_last this h c cb Hctl Hc Hone).
      rewrite wrap_int_id by (unfold INT_MIN, INT_MAX in *; lia). done. }
  split; [exact Hrel |]. split; [exact Hrel |].
  split; [| split].
  - intros other. unfold shared_copy_assign, shared_copy_ctor.
    unfold mbind, M_bind, bind. by rewrite Hrel.
  - intros other. unfold shared_move_assign, shared_move_ctor.
    unfold mbind, M_bind, bind. by rewrite Hrel.
  - intros c cb p Hctl Hp Hc.
    destruct (decide (strong_count cb = 1%Z)) as [Hone|Hone].
    + rewrite (release_last this h c cb p Hctl Hp Hc Hone).
      eexists. split; [reflexivity |].
      destruct (decide (weak_count cb = 1%Z)); heap_simpl.
      * split; [by rewrite <- app_assoc |].
        intros cb'. by rewrite lookup_delete_eq.
      * split; [done |].
        intros cb'. rewrite lookup_insert_eq. intros [= <-]. simpl. lia.
    + rewrite (release_not_last this h c cb Hctl Hc Hone).
      eexists. split; [reflexivity |]. heap_simpl.
      split; [by rewrite app_nil_r |].
      intros cb'. rewrite lookup_insert_eq. intros [= <-]. simpl.
      pose proof (Hrange c cb Hctl Hc).
      apply wrap_int_id. unfold INT_MIN, INT_MAX in *. lia.
Qed.

Lemma release_follows_strong_protocol_witness :
  let this := SharedPtr (Some 1) (Some 0) in
  let h := Heap {[ 0 := ControlBlock 1 2 ]} [] 2 in
  release this h = release_strong_protocol this h ∧
  ∃ h', release this h = Ok (tt, h') ∧
        events h' = [Destroyed 1] ∧
        blocks h' !! 0 = Some (ControlBlock 0 1).
Proof.
  intros this h.
  assert (Hrange : ∀ c cb, control this = Some c → blocks h !! c = Some cb →
                           (INT_MIN < strong_count cb ≤ INT_MAX)%Z).
  { intros c cb [= <-] Hc. vm_compute in Hc. injection Hc as <-.
    unfold INT_MIN, INT_MAX. simpl. lia. }
  destruct (release_follows_strong_protocol this h Hrange)
    as (Heq & _ & _ & _ & Hobs).
  split; [exact Heq |].
  destruct (Hobs 0 (ControlBlock 1 2) 1 eq_refl eq_refl eq_refl)
    as (h' & Hrun & Hev & _).
  exists h'. split; [exact Hrun |]. split; [exact Hev |].
  assert (Hh : Ok (tt, h') = release this h) by (by rewrite Hrun).
  vm_compute in Hh. by injection Hh as ->.
Defined.

Lemma reset_empty (this : my_weak_ptr) h :
  wcontrol this = None → reset this h = Ok (weak_default, h).
Proof. intros Hctl. unfold reset. by rewrite Hctl. Qed.

Lemma reset_eq (this : my_weak_ptr) h c cb :
  wcontrol this = Some c → blocks h !! c = Some cb →
  reset this h =
    Ok (weak_default,
        if decide (weak_count cb = 1%Z) then drop_block c h
        else set_block c (ControlBlock (strong_count cb)
                                       (wrap_int (weak_count cb - 1))) h).
Proof.
  intros Hctl Hc. unfold reset. rewrite Hctl.
  unfold mbind, M_bind, bind. by rewrite (release_weak_eq c h cb Hc).
Qed.

Lemma reset_freed (this : my_weak_ptr) h c :
  wcontrol this = Some c → blocks h !! c = None →
  reset this h = Fault UseAfterFree.
Proof.
  intros Hctl Hc. unfold reset. rewrite Hctl.
  unfold mbind, M_bind, bind. by rewrite (release_weak_freed c h Hc).
Qed.

Lemma reset_frame (this : my_weak_ptr) h v h' c' :
  reset this h = Ok (v, h') → wcontrol this ≠ Some c' →
  blocks h' !! c' = blocks h !! c'.
Proof.
  intros Hres Hne. destruct (wcontrol this) as [c|] eqn:Hctl.
  - assert (c ≠ c') by congruence.
    destruct (blocks h !! c) as [cb|] eqn:Hc.
    + rewrite (reset_eq this h c cb Hctl Hc) in Hres. injection Hres as <- <-.
      destruct (decide (weak_count cb = 1%Z)); heap_simpl.
      * by rewrite lookup_delete_ne.
      * by rewrite lookup_insert_ne.
    + by rewrite (reset_freed this h c Hctl Hc) in Hres.
  - rewrite (reset_empty this h Hctl) in Hres. by injection Hres as <- <-.
Qed.

(** ** Copying from an empty shared pointer *)

(** C10, as stated, fails for the two assignments: the destination gives up
    what it held before.  Here the destination shares a payload with one
    other shared pointer (respectively observes it together with one other
    weak pointer); assigning an empty shared pointer lowers the strong
    (respectively weak) count of that block from 2 to 1. *)
Lemma assign_from_empty_changes_counts :
  let empty := shared_default in
  control empty = None ∧
  (let h := Heap {[ 0 := ControlBlock 2 0 ]} [] 2 in
   ∃ v h', shared_copy_assign false (SharedPtr (Some 1) (Some 0)) empty h
             = Ok (v, h') ∧
           blocks h !! 0 = Some (ControlBlock 2 0) ∧
           blocks h' !! 0 = Some (ControlBlock 1 0)) ∧
  (let h := Heap {[ 0 := ControlBlock 1 2 ]} [] 2 in
   ∃ v h', weak_assign_shared (WeakPtr (Some 1) (Some 0)) empty h
             = Ok (v, h') ∧
           blocks h !! 0 = Some (ControlBlock 1 2) ∧
           blocks h' !! 0 = Some (ControlBlock 1 1)).
Proof.
  split; [reflexivity |].
  split; simpl; do 2 eexists; (split; [vm_compute; reflexivity |]);
    split; vm_compute; reflexivity.
Qed.

(** C10, amended.  From a shared pointer without control block: the copy
    constructor and the weak pointer's converting constructor return a
    pointer without control block and leave the heap as it is.  The two
    assignments leave the destination without control block after running
    exactly the release of what the destination held (the shared pointer's
    [release], the weak pointer's [reset]); the counters of every other
    block stay as they are, and nothing changes at all when the destination
    held no block or is the source object itself. *)
Theorem from_empty_shared (other : my_shared_ptr) h :
  control other = None →
  shared_copy_ctor other h = Ok (SharedPtr (ptr other) None, h) ∧
  weak_from_shared other h = Ok (WeakPtr (ptr other) None, h) ∧
  shared_copy_assign true other other h = Ok (other, h) ∧
  (∀ this : my_shared_ptr,
      shared_copy_assign false this other h =
        match release this h with
        | Ok (_, h') => Ok (SharedPtr (ptr other) None, h')
        | Fault f => Fault f
        end ∧
      (control this = None →
       shared_copy_assign false this other h = Ok (SharedPtr (ptr other) None, h)) ∧
      (∀ v h' c', shared_copy_assign false this other h = Ok (v, h') →
                  control this ≠ Some c' → blocks h' !! c' = blocks h !! c')) ∧
  (∀ this : my_weak_ptr,
      weak_assign_shared this other h =
        match reset this h with
        | Ok (_, h') => Ok (WeakPtr (ptr other) None, h')
        | Fault f => Fault f
        end ∧
      (wcontrol this = None →
       weak_assign_shared this other h = Ok (WeakPtr (ptr other) None, h)) ∧
      (∀ v h' c', weak_assign_shared this other h = Ok (v, h') →
                  wcontrol this ≠ Some c' → blocks h' !! c' = blocks h !! c')).
Proof.
  intros Hemp.
  assert (Hsa : ∀ this : my_shared_ptr,
            shared_copy_assign false this other h =
              match release this h with
              | Ok (_, h') => Ok (SharedPtr (ptr other) None, h')
              | Fault f => Fault f
              end).
  { intros this. unfold shared_copy_assign. rewrite Hemp.
    unfold mbind, M_bind, bind.
    destruct (release this h) as [[[] h']|f]; reflexivity. }
  assert (Hwa : ∀ this : my_weak_ptr,
            weak_assign_shared this other h =
              match reset this h with
              | Ok (_, h') => Ok (WeakPtr (ptr other) None, h')
              | Fault f => Fault f
              end).
  { intros this. unfold weak_assign_shared. rewrite Hemp.
    unfold mbind, M_bind, bind.
    destruct (reset this h) as [[v h']|f]; reflexivity. }
  split; [unfold shared_copy_ctor; by rewrite Hemp |].
  split; [unfold weak_from_shared; by rewrite Hemp |].
  split; [reflexivity |].
  split.
  - intros this. split; [apply Hsa |]. split.
    + intros Hthis. rewrite Hsa. by rewrite (release_empty this h Hthis).
    + intros v h' c' Hrun Hne. rewrite Hsa in Hrun.
      destruct (release this h) as [[u h1]|f] eqn:Hrel; [| discriminate].
      injection Hrun as _ <-. by eapply release_frame.
  - intros this. split; [apply Hwa |]. split.
    + intros Hthis. rewrite Hwa. by rewrite (reset_empty this h Hthis).
    + intros v h' c' Hrun Hne. rewrite Hwa in Hrun.
      destruct (reset this h) as [[u h1]|f] eqn:Hres; [| discriminate].
      injection Hrun as _ <-. by eapply reset_frame.
Qed.

Lemma from_empty_shared_witness :
  let h := Heap {[ 0 := ControlBlock 2 1 ]} [] 2 in
  shared_copy_ctor shared_default h = Ok (shared_default, h) ∧
  weak_from_shared shared_default h = Ok (weak_default, h) ∧
  shared_copy_assign false shared_default shared_default h
    = Ok (shared_default, h).
Proof.
  intros h.
  destruct (from_empty_shared shared_default h eq_refl)
    as (Hcopy & Hweak & _ & Hassign & _).
  split; [exact Hcopy |]. split; [exact Hweak |].
  destruct (Hassign shared_default) as (_ & Hnone & _).
  apply Hnone. reflexivity.
Defined.

(** ** Counting owners *)

Implicit Types (m : gmap nat my_shared_ptr) (x y : nat) (v : my_shared_ptr)
  (w : my_weak_ptr) (s : system).

Lemma refers_le_1 c v : refers c v ≤ 1.
Proof. unfold refers. case_decide; lia. Qed.

Lemma refers_empty c : refers c shared_default = 0.
Proof. reflexivity. Qed.

Lemma owners_delete c x m old :
  m !! x = Some old → owners c (delete x m) + refers c old = owners c m.
Proof.
  intros Hx. unfold owners, refers. rewrite map_filter_delete, map_size_delete.
  destruct (decide (control old = Some c)) as [Hc|Hc].
  - assert (Hf : filter (λ kv : nat * my_shared_ptr, control kv.2 = Some c) m !! x
                 = Some old) by (by apply map_lookup_filter_Some).
    rewrite Hf.
    assert (size (filter (λ kv : nat * my_shared_ptr, control kv.2 = Some c) m) ≠ 0).
    { apply map_size_ne_0_lookup. eauto. }
    lia.
  - assert (Hf : filter (λ kv : nat * my_shared_ptr, control kv.2 = Some c) m !! x
                 = None).
    { apply map_lookup_filter_None. right. intros v Hv. simpl. congruence. }
    rewrite Hf. simpl. lia.
Qed.

Lemma owners_insert_new c x m v :
  m !! x = None → owners c (<[x := v]> m) = owners c m + refers c v.
Proof.
  intros Hx. unfold owners, refers. rewrite map_filter_insert. simpl.
  destruct (decide (control v = Some c)) as [Hc|Hc].
  - rewrite map_size_insert_None; [lia |].
    apply map_lookup_filter_None. left. done.
  - rewrite delete_id by done. lia.
Qed.

Lemma owners_insert c x m v old :
  m !! x = Some old →
  owners c (<[x := v]> m) + refers c old = owners c m + refers c v.
Proof.
  intros Hx. rewrite <-(insert_delete_eq m x v).
  rewrite owners_insert_new by apply lookup_delete_eq.
  pose proof (owners_delete c x m old Hx). lia.
Qed.

Lemma owners_le_size c m : owners c m ≤ size m.
Proof. unfold owners. apply map_subseteq_size, map_filter_subseteq. Qed.

Lemma owners_pos c x m v :
  m !! x = Some v → control v = Some c → 1 ≤ owners c m.
Proof.
  intros Hx Hc. pose proof (owners_delete c x m v Hx) as Hd.
  unfold refers in Hd. rewrite decide_True in Hd by done. lia.
Qed.

Lemma owners_pos_inv c m :
  1 ≤ owners c m → ∃ x v, m !! x = Some v ∧ control v = Some c.
Proof.
  unfold owners. intros Hpos.
  destruct (map_size_ne_0_lookup_1
              (filter (λ kv : nat * my_shared_ptr, control kv.2 = Some c) m))
    as [x [v Hv]]; [lia |].
  apply map_lookup_filter_Some in Hv as [Hv Hc]. eauto.
Qed.

(** ** Invariants of client code *)

Lemma moves_consistent d s s' :
  consistent s →
  (Z.of_nat (size (shared_vars s)) + 2 ≤ INT_MAX)%Z →
  moves d s s' → consistent s'.
Proof.
  intros [Hbb Hsb Hso] Hsize [Hnext Hblocks Howners Hunit Hup].
  split.
  - intros c cb' Hc. destruct (Hblocks c cb' Hc) as (cb & Hcb & _).
    rewrite Hnext. eauto.
  - intros x v c Hx Hv. rewrite Hnext.
    pose proof (owners_pos c x _ v Hx Hv) as Hpos.
    pose proof (Howners c) as Ho.
    destruct (decide (1 ≤ owners c (shared_vars s))) as [Hold|Hold].
    + destruct (owners_pos_inv c _ Hold) as (x0 & v0 & Hx0 & Hv0). eauto.
    + assert (Hd : d c = 1%Z) by (destruct (Hunit c) as [?|[?|?]]; lia).
      destruct (Hup c Hd) as (cb & Hcb & _). eauto.
  - intros c cb' Hc. destruct (Hblocks c cb' Hc) as (cb & Hcb & Hstrong).
    pose proof (Hso c cb Hcb) as Hrange.
    pose proof (Howners c) as Ho.
    pose proof (owners_le_size c (shared_vars s)) as Hle.
    rewrite Hstrong.
    destruct (decide (d c = 0%Z)) as [Hz|Hnz]; [lia |].
    rewrite wrap_int_id; [lia |].
    unfold INT_MIN, INT_MAX in *.
    destruct (Hunit c) as [?|[?|?]]; lia.
Qed.

Lemma moves_gone d s s' c :
  consistent s → moves d s s' → object_gone c s → object_gone c s'.
Proof.
  intros [Hbb Hsb Hso] [Hnext Hblocks Howners Hunit Hup] [Hlt Hzero].
  split; [by rewrite Hnext |].
  intros cb' Hc. destruct (Hblocks c cb' Hc) as (cb & Hcb & Hstrong).
  pose proof (Hzero cb Hcb) as Hz.
  pose proof (Hso c cb Hcb) as Hrange.
  pose proof (Howners c) as Ho.
  assert (Hd : d c = 0%Z).
  { destruct (Hunit c) as [Hd|[?|?]]; [| done | lia].
    destruct (Hup c Hd) as (cb0 & Hcb0 & Hwhy).
    assert (cb0 = cb) by congruence. subst cb0.
    destruct Hwhy; [lia | done]. }
  rewrite Hstrong. by rewrite decide_True.
Qed.

Lemma strong_effect_refl h : strong_effect (λ _ z, z) h h.
Proof. split; [done |]. intros c cb' Hc. eauto. Qed.

Lemma strong_effect_drop c h : strong_effect (λ _ z, z) h (drop_block c h).
Proof.
  split; [done |]. intros c0 cb' Hc0. simpl in Hc0.
  apply lookup_delete_Some in Hc0 as [_ Hc0]. eauto.
Qed.

Lemma strong_effect_set f c cb cb1 h :
  blocks h !! c = Some cb →
  strong_count cb1 = f c (strong_count cb) →
  (∀ c0 z, c0 ≠ c → f c0 z = z) →
  strong_effect f h (set_block c cb1 h).
Proof.
  intros Hc Hs Hf. split; [done |]. intros c0 cb' Hc0. simpl in Hc0.
  destruct (decide (c0 = c)) as [->|Hne].
  - rewrite lookup_insert_eq in Hc0. injection Hc0 as <-. eauto.
  - rewrite lookup_insert_ne in Hc0 by done. exists cb'. by rewrite Hf.
Qed.

Lemma strong_effect_same_blocks f h h1 h2 :
  blocks h2 = blocks h1 → next_addr h2 = next_addr h1 →
  strong_effect f h h1 → strong_effect f h h2.
Proof. intros Hb Hn [Hn1 Hb1]. split; [congruence |]. by rewrite Hb. Qed.

Lemma add_weak_effect c h u h' :
  add_weak c h = Ok (u, h') → strong_effect (λ _ z, z) h h'.
Proof.
  intros Hrun. destruct (blocks h !! c) as [cb|] eqn:Hc.
  - rewrite (add_weak_eq c h cb Hc) in Hrun. injection Hrun as <- <-.
    by eapply strong_effect_set.
  - by rewrite (add_weak_freed c h Hc) in Hrun.
Qed.

Lemma release_weak_effect c h u h' :
  release_weak c h = Ok (u, h') → strong_effect (λ _ z, z) h h'.
Proof.
  intros Hrun. destruct (blocks h !! c) as [cb|] eqn:Hc.
  - rewrite (release_weak_eq c h cb Hc) in Hrun. injection Hrun as <- <-.
    destruct (decide (weak_count cb = 1%Z)).
    + apply strong_effect_drop.
    + by eapply strong_effect_set.
  - by rewrite (release_weak_freed c h Hc) in Hrun.
Qed.

Lemma reset_effect w h r h' :
  reset w h = Ok (r, h') → r = weak_default ∧ strong_effect (λ _ z, z) h h'.
Proof.
  unfold reset. destruct (wcontrol w) as [c|].
  - unfold mbind, M_bind, bind.
    destruct (release_weak c h) as [[[] h1]|f] eqn:Hrel; [| done].
    intros [= <- <-]. split; [done |]. by eapply release_weak_effect.
  - intros [= <- <-]. split; [done |]. apply strong_effect_refl.
Qed.

Lemma strong_effect_keep_trans f h h1 h2 :
  strong_effect (λ _ z, z) h h1 → strong_effect f h1 h2 → strong_effect f h h2.
Proof.
  intros [Hn1 Hb1] [Hn2 Hb2]. split; [congruence |].
  intros c cb2 Hc2. destruct (Hb2 c cb2 Hc2) as (cb1 & Hc1 & Hs2).
  destruct (Hb1 c cb1 Hc1) as (cb & Hc & Hs1).
  exists cb. split; [done |]. by rewrite Hs2, Hs1.
Qed.

Lemma weak_from_shared_effect v h r h' :
  weak_from_shared v h = Ok (r, h') →
  r = WeakPtr (ptr v) (control v) ∧ strong_effect (λ _ z, z) h h'.
Proof.
  unfold weak_from_shared. destruct (control v) as [c|].
  - unfold mbind, M_bind, bind.
    destruct (add_weak c h) as [[[] h1]|f] eqn:Hadd; [| done].
    intros [= <- <-]. split; [done |]. by eapply add_weak_effect.
  - intros [= <- <-]. split; [done |]. apply strong_effect_refl.
Qed.

Lemma weak_copy_ctor_effect w h r h' :
  weak_copy_ctor w h = Ok (r, h') →
  r = WeakPtr (wptr w) (wcontrol w) ∧ strong_effect (λ _ z, z) h h'.
Proof.
  unfold weak_copy_ctor. destruct (wcontrol w) as [c|].
  - unfold mbind, M_bind, bind.
    destruct (add_weak c h) as [[[] h1]|f] eqn:Hadd; [| done].
    intros [= <- <-]. split; [done |]. by eapply add_weak_effect.
  - intros [= <- <-]. split; [done |]. apply strong_effect_refl.
Qed.

Lemma weak_assign_shared_effect w v h r h' :
  weak_assign_shared w v h = Ok (r, h') →
  r = WeakPtr (ptr v) (control v) ∧ strong_effect (λ _ z, z) h h'.
Proof.
  unfold weak_assign_shared, mbind, M_bind, bind.
  destruct (reset w h) as [[r1 h1]|f] eqn:Hres; [| done].
  apply reset_effect in Hres as [_ Hres].
  intros Hrun.
  destruct (weak_from_shared_effect v h1 r h') as [Hr Heff].
  { unfold weak_from_shared. exact Hrun. }
  split; [done |]. by eapply strong_effect_keep_trans.
Qed.

Lemma weak_dtor_effect w h u h' :
  weak_dtor w h = Ok (u, h') → strong_effect (λ _ z, z) h h'.
Proof.
  unfold weak_dtor, mbind, M_bind, bind.
  destruct (reset w h) as [[r1 h1]|f] eqn:Hres; [| done].
  apply reset_effect in Hres as [_ Hres]. by intros [= <- <-].
Qed.

(** Strong-count effect of a release: minus one on the pointer's block. *)
Lemma release_effect v h u h' :
  release v h = Ok (u, h') →
  strong_effect (λ c z, if decide (control v = Some c) then wrap_int (z - 1) else z)
                h h' ∧
  (∀ c, control v = Some c → is_Some (blocks h !! c)).
Proof.
  intros Hrun. destruct (control v) as [c|] eqn:Hctl.
  2:{ rewrite (release_empty v h Hctl) in Hrun. injection Hrun as <- <-.
      split; [| done]. apply strong_effect_refl. }
  destruct (blocks h !! c) as [cb|] eqn:Hc.
  2:{ by rewrite (release_freed v h c Hctl Hc) in Hrun. }
  split; [| intros c0 [= <-]; eauto].
  destruct (decide (strong_count cb = 1%Z)) as [Hone|Hone].
  - destruct (ptr v) as [p|] eqn:Hp.
    + rewrite (release_last v h c cb p Hctl Hp Hc Hone) in Hrun.
      injection Hrun as <- <-.
      destruct (decide (weak_count cb = 1%Z)).
      * split; [done |]. intros c0 cb' Hc0. simpl in Hc0.
        apply lookup_delete_Some in Hc0 as [Hne Hc0].
        exists cb'. split; [done |]. rewrite decide_False; [done | congruence].
      * eapply (strong_effect_same_blocks _ _ (set_block c _ h)); [done | done |].
        eapply strong_effect_set; [done | |].
        -- simpl. rewrite decide_True by done. by rewrite Hone.
        -- intros c0 z Hne. rewrite decide_False; [done | congruence].
    + unfold release in Hrun. rewrite Hctl, Hp in Hrun.
      unfold mbind, M_bind, bind in Hrun.
      rewrite (strong_fetch_sub_eq c 1 h cb Hc) in Hrun.
      rewrite decide_True in Hrun by done. discriminate.
  - rewrite (release_not_last v h c cb Hctl Hc Hone) in Hrun.
    injection Hrun as <- <-.
    eapply strong_effect_set; [done | |].
    + simpl. by rewrite decide_True.
    + intros c0 z Hne. rewrite decide_False; [done | congruence].
Qed.

(** Strong-count effect of the copy constructor: plus one on the block. *)
Lemma shared_copy_ctor_effect v h r h' :
  shared_copy_ctor v h = Ok (r, h') →
  r = SharedPtr (ptr v) (control v) ∧
  strong_effect (λ c z, if decide (control v = Some c) then wrap_int (z + 1) else z)
                h h' ∧
  (∀ c, control v = Some c → is_Some (blocks h !! c)).
Proof.
  unfold shared_copy_ctor. destruct (control v) as [c|] eqn:Hctl.
  - unfold mbind, M_bind, bind.
    destruct (blocks h !! c) as [cb|] eqn:Hc.
    + rewrite (strong_fetch_add_eq c 1 h cb Hc). intros [= <- <-].
      split; [done |]. split; [| intros c0 [= <-]; eauto].
      eapply strong_effect_set; [done | |].
      * simpl. by rewrite decide_True.
      * intros c0 z Hne. rewrite decide_False; [done | congruence].
    + unfold strong_fetch_add, mbind, M_bind, bind, read_block. by rewrite Hc.
  - intros [= <- <-]. split; [done |]. split; [| done].
    apply strong_effect_refl.
Qed.

Lemma shared_eta v : SharedPtr (ptr v) (control v) = v.
Proof. by destruct v. Qed.

Lemma moves_preserved d s s' :
  consistent s → in_bounds s → moves d s s' → preserved s s'.
Proof.
  intros Hcons Hb Hm. split.
  - by eapply moves_consistent.
  - intros c. by eapply moves_gone.
Qed.

Lemma preserved_trans s s1 s2 :
  preserved s s1 → preserved s1 s2 → preserved s s2.
Proof. intros [_ Hg1] [Hc2 Hg2]. split; [done |]. auto. Qed.

(** Statements that leave the strong counts and the owners alone. *)
Lemma moves_still s h' vars' wvars' :
  strong_effect (λ _ z, z) (mem s) h' →
  (∀ c, owners c vars' = owners c (shared_vars s)) →
  moves (λ _, 0%Z) s (System h' vars' wvars').
Proof.
  intros [Hn Hb] Ho. split; simpl.
  - done.
  - intros c cb' Hc. destruct (Hb c cb' Hc) as (cb & Hcb & Hs).
    by exists cb.
  - intros c. rewrite Ho. lia.
  - auto.
  - discriminate.
Qed.

(** Statements that release the shared pointer value [v]. *)
Lemma moves_down s v x h' vars' wvars' :
  shared_vars s !! x = Some v →
  strong_effect (λ c z, if decide (control v = Some c) then wrap_int (z - 1) else z)
                (mem s) h' →
  (∀ c, owners c vars' + refers c v = owners c (shared_vars s)) →
  moves (λ c, - Z.of_nat (refers c v))%Z s (System h' vars' wvars').
Proof.
  intros Hx [Hn Hb] Ho. split; simpl.
  - done.
  - intros c cb' Hc. destruct (Hb c cb' Hc) as (cb & Hcb & Hs).
    exists cb. split; [done |]. rewrite Hs. unfold refers.
    destruct (decide (control v = Some c)); simpl; [| done].
    f_equal; lia.
  - intros c. specialize (Ho c). lia.
  - intros c. unfold refers. case_decide; simpl; auto.
  - intros c. unfold refers. case_decide; simpl; lia.
Qed.

(** Statements that create one more reference to the block of [v]. *)
Lemma moves_up_by s v h' vars' wvars' :
  strong_effect (λ c z, if decide (control v = Some c) then wrap_int (z + 1) else z)
                (mem s) h' →
  (∀ c, owners c vars' = owners c (shared_vars s) + refers c v) →
  (∀ c, control v = Some c →
        ∃ cb, blocks (mem s) !! c = Some cb ∧
              (1 ≤ owners c (shared_vars s) ∨ strong_count cb ≠ 0%Z)) →
  moves (λ c, Z.of_nat (refers c v)) s (System h' vars' wvars').
Proof.
  intros [Hn Hb] Ho Hwhy. split; simpl.
  - done.
  - intros c cb' Hc. destruct (Hb c cb' Hc) as (cb & Hcb & Hs).
    exists cb. split; [done |]. rewrite Hs. unfold refers.
    destruct (decide (control v = Some c)); simpl; [| done].
    f_equal; lia.
  - intros c. rewrite Ho. lia.
  - intros c. unfold refers. case_decide; simpl; auto.
  - intros c. unfold refers. case_decide; simpl; [auto | lia].
Qed.

(** A statement that allocates one control block and possibly declares its
    first owner. *)
Lemma alloc_preserved s n' vars' :
  consistent s →
  next_addr (mem s) < n' →
  (vars' = shared_vars s ∨
   ∃ x (raw : option nat), shared_vars s !! x = None ∧
          vars' = <[x := SharedPtr raw (Some (next_addr (mem s)))]> (shared_vars s)) →
  preserved s
    (System (Heap (<[next_addr (mem s) := control_block_ctor]> (blocks (mem s)))
                  (events (mem s)) n')
            vars' (weak_vars s)).
Proof.
  intros [Hbb Hsb Hso] Hn Hvars.
  set (n := next_addr (mem s)) in *.
  assert (Hnone : owners n (shared_vars s) = 0).
  { destruct (decide (1 ≤ owners n (shared_vars s))) as [Hpos|]; [| lia].
    destruct (owners_pos_inv n _ Hpos) as (x & v & Hx & Hv).
    pose proof (Hsb x v n Hx Hv). lia. }
  assert (Hown : ∀ c, c ≠ n → owners c vars' = owners c (shared_vars s)).
  { intros c Hc. destruct Hvars as [-> | (x & raw & Hx & ->)]; [done |].
    rewrite owners_insert_new by done. unfold refers. simpl.
    rewrite decide_False; [lia | congruence]. }
  split; [split; simpl |].
  - intros c cb Hc. destruct (decide (c = n)) as [->|Hne]; [done |].
    rewrite lookup_insert_ne in Hc by done. pose proof (Hbb c cb Hc). lia.
  - intros x v c Hx Hv. destruct Hvars as [-> | (x0 & raw & Hx0 & ->)].
    + pose proof (Hsb x v c Hx Hv). lia.
    + destruct (decide (x = x0)) as [->|Hne].
      * rewrite lookup_insert_eq in Hx. injection Hx as <-.
        simpl in Hv. injection Hv as <-. done.
      * rewrite lookup_insert_ne in Hx by done.
        pose proof (Hsb x v c Hx Hv). lia.
  - intros c cb Hc. destruct (decide (c = n)) as [->|Hne].
    + rewrite lookup_insert_eq in Hc. injection Hc as <-. simpl.
      destruct Hvars as [-> | (x & raw & Hx & ->)].
      * rewrite Hnone. lia.
      * rewrite owners_insert_new by done. rewrite Hnone.
        pose proof (refers_le_1 n (SharedPtr raw (Some n))). lia.
    + rewrite lookup_insert_ne in Hc by done. rewrite Hown by done. auto.
  - intros c [Hlt Hzero]. split; simpl; [lia |].
    intros cb Hc. rewrite lookup_insert_ne in Hc by lia. auto.
Qed.

Ltac open_exec H :=
  unfold exec, new_shared, new_weak, the_shared, the_weak, call in H;
  repeat match type of H with
  | context [shared_vars ?s !! ?x] =>
      let v := fresh "v" in let Hv := fresh "Hv" in
      destruct (shared_vars s !! x) as [v|] eqn:Hv; try discriminate H
  | context [weak_vars ?s !! ?x] =>
      let v := fresh "w" in let Hv := fresh "Hw" in
      destruct (weak_vars s !! x) as [v|] eqn:Hv; try discriminate H
  end.

Lemma exec_preserved st s s' :
  consistent s → in_bounds s → exec st s = Ok s' → preserved s s'.
Proof.
  intros Hcons Hb Hrun. destruct st as
    [x | x p | x throws | x y | x y | x y | x y | x
     | w0 | w0 x | w0 w1 | w0 x | w0 w1 | w0].
  - (* SharedDefault *)
    open_exec Hrun. injection Hrun as <-.
    eapply moves_preserved; [done | done |].
    apply moves_still; [apply strong_effect_refl |].
    intros c. by rewrite owners_insert_new.
  - (* SharedFromRaw *)
    open_exec Hrun. unfold shared_from_raw in Hrun. injection Hrun as <-.
    apply alloc_preserved; [done | lia |]. right. eauto.
  - (* MakeShared *)
    open_exec Hrun. unfold make_shared in Hrun. destruct throws.
    + injection Hrun as <-. apply alloc_preserved; [done | lia |]. by left.
    + injection Hrun as <-. apply alloc_preserved; [done | lia |].
      right. eauto.
  - (* SharedCopy *)
    open_exec Hrun.
    destruct (shared_copy_ctor v (mem s)) as [[r h']|f] eqn:Hcopy; [| done].
    injection Hrun as <-.
    apply shared_copy_ctor_effect in Hcopy as (-> & Heff & Hsome).
    rewrite shared_eta.
    eapply moves_preserved; [done | done |].
    apply moves_up_by; [done | |].
    + intros c. by rewrite owners_insert_new.
    + intros c Hc. destruct (Hsome c Hc) as [cb Hcb]. exists cb.
      split; [done |]. left. by eapply owners_pos.
  - (* SharedMove *)
    open_exec Hrun. simpl in Hrun. injection Hrun as <-.
    rewrite shared_eta.
    assert (x ≠ y) by congruence.
    eapply moves_preserved; [done | done |].
    apply moves_still; [apply strong_effect_refl |].
    intros c.
    rewrite owners_insert_new by (by rewrite lookup_insert_ne).
    pose proof (owners_insert c y (shared_vars s) (SharedPtr None None) v Hv0) as Ho.
    change (refers c (SharedPtr None None)) with 0 in Ho. lia.
  - (* SharedCopyAssign *)
    open_exec Hrun.
    destruct (shared_copy_assign (bool_decide (x = y)) v v0 (mem s))
      as [[r h']|f] eqn:Hassign; [| done].
    injection Hrun as <-. unfold shared_copy_assign in Hassign.
    case_bool_decide as Hxy.
    + injection Hassign as <- <-.
      eapply moves_preserved; [done | done |].
      apply moves_still; [apply strong_effect_refl |].
      intros c. by rewrite insert_id.
    + unfold mbind, M_bind, bind in Hassign.
      destruct (release v (mem s)) as [[[] h1]|f] eqn:Hrel; [| done].
      apply release_effect in Hrel as [Hrel _].
      change (shared_copy_ctor v0 h1 = Ok (r, h')) in Hassign.
      apply shared_copy_ctor_effect in Hassign as (-> & Heff & Hsome).
      rewrite shared_eta.
      set (s1 := System h1 (<[x := shared_default]> (shared_vars s)) (weak_vars s)).
      assert (Hstep1 : moves (λ c, - Z.of_nat (refers c v))%Z s s1).
      { apply moves_down with (x := x); [done | done |].
        intros c.
        pose proof (owners_insert c x (shared_vars s) shared_default v Hv) as Ho.
        rewrite refers_empty in Ho. lia. }
      assert (Hp1 : preserved s s1) by (by eapply moves_preserved).
      eapply preserved_trans; [exact Hp1 |].
      assert (Hb1 : in_bounds s1).
      { unfold in_bounds, s1. simpl. rewrite map_size_insert_Some by eauto. done. }
      replace (<[x := v0]> (shared_vars s))
        with (<[x := v0]> (shared_vars s1))
        by (simpl; apply insert_insert_eq).
      eapply moves_preserved; [apply Hp1 | done |].
      apply (moves_up_by s1 v0); [done | |].
      * intros c.
        pose proof (owners_insert c x (shared_vars s1) v0 shared_default) as Ho.
        rewrite refers_empty in Ho.
        specialize (Ho ltac:(simpl; apply lookup_insert_eq)). lia.
      * intros c Hc. destruct (Hsome c Hc) as [cb Hcb]. exists cb.
        split; [done |]. left. eapply (owners_pos c y); [| done].
        simpl. by rewrite lookup_insert_ne.
  - (* SharedMoveAssign *)
    open_exec Hrun.
    destruct (shared_move_assign (bool_decide (x = y)) v v0 (mem s))
      as [[r h']|f] eqn:Hassign; [| done].
    injection Hrun as <-. unfold shared_move_assign in Hassign.
    case_bool_decide as Hxy.
    + injection Hassign as <- <-. subst y. simpl.
      assert (v0 = v) by congruence. subst v0.
      eapply moves_preserved; [done | done |].
      apply moves_still; [apply strong_effect_refl |].
      intros c. by rewrite insert_insert_eq, insert_id.
    + unfold mbind, M_bind, bind in Hassign.
      destruct (release v (mem s)) as [[[] h1]|f] eqn:Hrel; [| done].
      apply release_effect in Hrel as [Hrel _].
      injection Hassign as <- <-. simpl. rewrite shared_eta.
      eapply moves_preserved; [done | done |].
      apply moves_down with (x := x); [done | done |].
      intros c.
      pose proof (owners_insert c y (shared_vars s) (SharedPtr None None) v0 Hv0)
        as Ho1.
      change (refers c (SharedPtr None None)) with 0 in Ho1.
      pose proof (owners_insert c x (<[y := SharedPtr None None]> (shared_vars s))
                    v0 v) as Ho2.
      rewrite lookup_insert_ne in Ho2 by done. specialize (Ho2 Hv). lia.
  - (* SharedEnd *)
    open_exec Hrun.
    destruct (shared_dtor v (mem s)) as [[[] h']|f] eqn:Hrel; [| done].
    injection Hrun as <-.
    apply release_effect in Hrel as [Hrel _].
    eapply moves_preserved; [done | done |].
    apply moves_down with (x := x); [done | done |].
    intros c. by apply owners_delete.
  - (* WeakDefault *)
    open_exec Hrun. injection Hrun as <-.
    eapply moves_preserved; [done | done |].
    apply moves_still; [apply strong_effect_refl | done].
  - (* WeakFromShared *)
    open_exec Hrun.
    destruct (weak_from_shared v (mem s)) as [[r h']|f] eqn:Hcall; [| done].
    injection Hrun as <-. apply weak_from_shared_effect in Hcall as [_ Heff].
    eapply moves_preserved; [done | done |]. by apply moves_still.
  - (* WeakCopy *)
    open_exec Hrun.
    destruct (weak_copy_ctor w (mem s)) as [[r h']|f] eqn:Hcall; [| done].
    injection Hrun as <-. apply weak_copy_ctor_effect in Hcall as [_ Heff].
    eapply moves_preserved; [done | done |]. by apply moves_still.
  - (* WeakAssignShared *)
    open_exec Hrun.
    destruct (weak_assign_shared w v (mem s)) as [[r h']|f] eqn:Hcall; [| done].
    injection Hrun as <-. apply weak_assign_shared_effect in Hcall as [_ Heff].
    eapply moves_preserved; [done | done |]. by apply moves_still.
  - (* WeakAssignWeak *)
    open_exec Hrun. injection Hrun as <-.
    eapply moves_preserved; [done | done |].
    apply moves_still; [apply strong_effect_refl | done].
  - (* WeakEnd *)
    open_exec Hrun.
    destruct (weak_dtor w (mem s)) as [[[] h']|f] eqn:Hcall; [| done].
    injection Hrun as <-. apply weak_dtor_effect in Hcall.
    eapply moves_preserved; [done | done |]. by apply moves_still.
Qed.

Lemma exec_size st s s' :
  exec st s = Ok s' → size (shared_vars s') ≤ S (size (shared_vars s)).
Proof.
  intros Hrun. destruct st; open_exec Hrun;
    repeat match type of Hrun with
    | context [match ?m (mem s) with _ => _ end] =>
        destruct (m (mem s)) as [[? ?]|?]; try discriminate Hrun
    | context [match make_shared ?b ?h with _ => _ end] =>
        destruct (make_shared b h) as [[?|] ?]
    | context [let '(_, _) := ?p in _] => destruct p
    end;
    injection Hrun as <-; simpl;
    rewrite ?map_size_insert, ?map_size_delete;
    repeat match goal with
    | |- context [match ?m !! ?k with _ => _ end] => destruct (m !! k)
    end; simpl; first [lia | congruence].
Qed.

Lemma consistent_start : consistent start.
Proof.
  split; simpl.
  - intros c cb Hc. by rewrite lookup_empty in Hc.
  - intros x v c Hx. by rewrite lookup_empty in Hx.
  - intros c cb Hc. by rewrite lookup_empty in Hc.
Qed.

Lemma run_preserved prog : ∀ s s',
  consistent s →
  (Z.of_nat (size (shared_vars s)) + Z.of_nat (length prog) + 1 ≤ INT_MAX)%Z →
  run prog s = Ok s' → preserved s s'.
Proof.
  induction prog as [|st rest IH]; intros s s' Hcons Hb Hrun.
  - injection Hrun as <-. by split.
  - simpl in Hrun. destruct (exec st s) as [s1|f] eqn:Hstep; [| done].
    simpl length in Hb.
    assert (Hp1 : preserved s s1).
    { apply (exec_preserved st); [done | unfold in_bounds; lia | done]. }
    pose proof (exec_size st s s1 Hstep) as Hsize.
    eapply preserved_trans; [exact Hp1 |].
    apply IH; [apply Hp1 | lia | done].
Qed.

(** ** The round trip: make_shared, clones, scope exits *)

Local Abbreviation sp := (SharedPtr (Some 1) (Some 0)).
Local Abbreviation wp := (WeakPtr (Some 1) (Some 0)).

Implicit Types (n k : nat).

Lemma run_app prog1 prog2 s :
  run (prog1 ++ prog2) s =
    match run prog1 s with
    | Ok s1 => run prog2 s1
    | Fault f => Fault f
    end.
Proof.
  revert s. induction prog1 as [|st prog1 IH]; intros s; simpl; [done |].
  destruct (exec st s); [apply IH | done].
Qed.

Lemma clones_S n : clones (S n) = clones n ++ [SharedCopy (S n) 0].
Proof. unfold clones. by rewrite seq_S, map_app. Qed.

Lemma observers_S k : observers (S k) = observers k ++ [WeakFromShared k 0].
Proof. unfold observers. by rewrite seq_S, map_app. Qed.

Lemma run_clones n :
  (Z.of_nat n + 1 ≤ INT_MAX)%Z →
  ∃ s, run (MakeShared 0 false :: clones n) start = Ok s ∧
       mem s = Heap {[ 0 := ControlBlock (Z.of_nat (S n)) 0 ]} [] 2 ∧
       weak_vars s = ∅ ∧
       ∀ x, shared_vars s !! x = if decide (x ≤ n) then Some sp else None.
Proof.
  induction n as [|n IH]; intros Hb.
  - eexists. split; [reflexivity |]. simpl.
    split; [by rewrite insert_empty |]. split; [done |].
    intros x. destruct (decide (x ≤ 0)) as [Hx|Hx].
    + assert (x = 0) as -> by lia. by rewrite lookup_insert_eq.
    + rewrite lookup_insert_ne by lia. apply lookup_empty.
  - destruct IH as (s & Hrun & Hmem & Hweak & Hvars); [lia |].
    rewrite clones_S, app_comm_cons, run_app, Hrun. simpl.
    unfold new_shared, the_shared, call.
    rewrite (Hvars (S n)), decide_False by lia.
    rewrite (Hvars 0), decide_True by lia.
    assert (Hblock : blocks (mem s) !! 0 = Some (ControlBlock (Z.of_nat (S n)) 0))
      by (rewrite Hmem; apply lookup_singleton_eq).
    unfold shared_copy_ctor. simpl. unfold mbind, M_bind, bind.
    rewrite (strong_fetch_add_eq 0 1 (mem s) _ Hblock). simpl.
    eexists. split; [reflexivity |]. simpl.
    split; [| split; [done |]].
    + unfold set_block. rewrite Hmem. simpl. rewrite insert_singleton_eq.
      rewrite wrap_int_id by (unfold INT_MIN; lia).
      do 3 f_equal. lia.
    + intros x. destruct (decide (x = S n)) as [->|Hne].
      * rewrite lookup_insert_eq. by rewrite decide_True by lia.
      * rewrite lookup_insert_ne by done. rewrite Hvars.
        destruct (decide (x ≤ n)); [by rewrite decide_True by lia |].
        by rewrite decide_False by lia.
Qed.

Lemma run_observers k : ∀ s z,
  (Z.of_nat k ≤ INT_MAX)%Z →
  mem s = Heap {[ 0 := ControlBlock z 0 ]} [] 2 →
  weak_vars s = ∅ →
  shared_vars s !! 0 = Some sp →
  ∃ s', run (observers k) s = Ok s' ∧
        mem s' = Heap {[ 0 := ControlBlock z (Z.of_nat k) ]} [] 2 ∧
        shared_vars s' = shared_vars s ∧
        ∀ x, weak_vars s' !! x = if decide (x < k) then Some wp else None.
Proof.
  induction k as [|k IH]; intros s z Hb Hmem Hweak Hsp.
  - exists s. split; [done |]. split; [done |]. split; [done |].
    intros x. rewrite Hweak. apply lookup_empty.
  - destruct (IH s z) as (s1 & Hrun & Hmem1 & Hsh1 & Hw1); [lia | done..|].
    rewrite observers_S, run_app, Hrun. simpl.
    unfold new_weak, the_shared, call.
    rewrite (Hw1 k), decide_False by lia. rewrite Hsh1, Hsp.
    assert (Hblock : blocks (mem s1) !! 0 = Some (ControlBlock z (Z.of_nat k)))
      by (rewrite Hmem1; apply lookup_singleton_eq).
    unfold weak_from_shared. simpl. unfold mbind, M_bind, bind.
    rewrite (add_weak_eq 0 (mem s1) _ Hblock). simpl.
    eexists. split; [reflexivity |]. simpl.
    split; [| split; [done |]].
    + unfold set_block. rewrite Hmem1. simpl. rewrite insert_singleton_eq.
      rewrite wrap_int_id by (unfold INT_MIN; lia).
      do 3 f_equal. lia.
    + intros x. destruct (decide (x = k)) as [->|Hne].
      * rewrite lookup_insert_eq. by rewrite decide_True by lia.
      * rewrite lookup_insert_ne by done. rewrite Hw1.
        destruct (decide (x < k)); [by rewrite decide_True by lia |].
        by rewrite decide_False by lia.
Qed.

Lemma run_scope_exits gone : ∀ s total k,
  NoDup gone →
  (∀ x, x ∈ gone → shared_vars s !! x = Some sp) →
  length gone ≤ total → (Z.of_nat total ≤ INT_MAX)%Z → (Z.of_nat k ≤ INT_MAX)%Z →
  mem s = Heap {[ 0 := ControlBlock (Z.of_nat total) (Z.of_nat k) ]} [] 2 →
  ∃ s', run (scope_exits gone) s = Ok s' ∧
        mem s' = (if decide (gone = []) then mem s
                  else after_exits total k (length gone)) ∧
        weak_vars s' = weak_vars s ∧
        ∀ x, shared_vars s' !! x =
             if decide (x ∈ gone) then None else shared_vars s !! x.
Proof.
  induction gone as [|x rest IH]; intros s total k Hnd Hin Hlen Htotal Hk Hmem.
  - exists s. split; [done |]. split; [done |]. split; [done |].
    intros x. rewrite decide_False; [done | apply not_elem_of_nil].
  - apply NoDup_cons in Hnd as [Hx Hnd]. simpl in Hlen.
    assert (Hblock : blocks (mem s) !! 0
                     = Some (ControlBlock (Z.of_nat total) (Z.of_nat k)))
      by (rewrite Hmem; apply lookup_singleton_eq).
    simpl. unfold the_shared, call.
    rewrite (Hin x) by apply list_elem_of_here.
    unfold shared_dtor.
    destruct (decide (total = 1)) as [->|Hone].
    + (* the last owner *)
      assert (rest = []) as -> by (destruct rest; [done | simpl in Hlen; lia]).
      rewrite (release_last sp (mem s) 0 _ 1 eq_refl eq_refl Hblock eq_refl).
      simpl. eexists. split; [reflexivity |]. simpl.
      split; [| split; [done |]].
      * unfold after_exits. simpl. rewrite Hmem.
        destruct (decide (Z.of_nat k = 1%Z)) as [Hk1|Hk1].
        -- rewrite decide_True by lia. unfold drop_block, add_event. simpl.
           by rewrite delete_singleton_eq.
        -- rewrite decide_False by lia. unfold set_block, add_event. simpl.
           rewrite insert_singleton_eq.
           by rewrite wrap_int_id by (unfold INT_MIN; lia).
      * intros y. destruct (decide (y = x)) as [->|Hne].
        -- rewrite lookup_delete_eq.
           by rewrite decide_True by apply list_elem_of_here.
        -- rewrite lookup_delete_ne by done.
           rewrite decide_False; [done |].
           rewrite elem_of_cons. intros [? | Hn]; [done |].
           by apply not_elem_of_nil in Hn.
    + (* other owners remain *)
      rewrite (release_not_last sp (mem s) 0 _ eq_refl Hblock)
        by (simpl; lia).
      simpl.
      set (s1 := System (set_block 0 _ (mem s)) (delete x (shared_vars s))
                        (weak_vars s)).
      destruct (IH s1 (total - 1) k) as (s' & Hrun & Hmem' & Hweak' & Hvars');
        [done | | lia | lia | done | |].
      * intros y Hy. simpl. rewrite lookup_delete_ne by (intros ->; done).
        apply Hin. by apply list_elem_of_further.
      * simpl. unfold set_block. rewrite Hmem. simpl.
        rewrite insert_singleton_eq.
        rewrite wrap_int_id by (unfold INT_MIN; lia).
        do 3 f_equal. lia.
      * exists s'. split; [done |]. split; [| split; [done |]].
        -- rewrite Hmem'. destruct (decide (rest = [])) as [->|Hrest].
           ++ simpl. unfold after_exits, set_block. simpl.
              rewrite decide_True by lia. rewrite Hmem. simpl.
              rewrite insert_singleton_eq.
              rewrite wrap_int_id by (unfold INT_MIN; lia).
              do 3 f_equal. lia.
           ++ unfold after_exits. simpl length.
              destruct (decide (length rest < total - 1)).
              ** rewrite (decide_True (P := S (length rest) < total)) by lia.
                 do 3 f_equal. lia.
              ** by rewrite (decide_False (P := S (length rest) < total)) by lia.
        -- intros y. rewrite Hvars'. simpl.
           destruct (decide (y = x)) as [->|Hne].
           ++ rewrite decide_False by done. rewrite lookup_delete_eq.
              by rewrite decide_True by apply list_elem_of_here.
           ++ rewrite lookup_delete_ne by done.
              destruct (decide (y ∈ rest)).
              ** by rewrite decide_True by (by apply list_elem_of_further).
              ** rewrite decide_False; [done |].
                 rewrite elem_of_cons. by intros [? | ?].
Qed.

Lemma run_round_trip n k gone :
  (Z.of_nat n + 1 ≤ INT_MAX)%Z → (Z.of_nat k ≤ INT_MAX)%Z →
  NoDup gone → (∀ x, x ∈ gone → x ≤ n) →
  ∃ s, run (round_trip n k gone) start = Ok s ∧
       mem s = (if decide (gone = [])
                then Heap {[ 0 := ControlBlock (Z.of_nat (S n)) (Z.of_nat k) ]} [] 2
                else after_exits (S n) k (length gone)) ∧
       (∀ x, weak_vars s !! x = if decide (x < k) then Some wp else None) ∧
       (∀ x, shared_vars s !! x =
             if decide (x ≤ n ∧ x ∉ gone) then Some sp else None).
Proof.
  intros Hn Hk Hnd Hle.
  destruct (run_clones n Hn) as (s0 & Hrun0 & Hmem0 & Hweak0 & Hvars0).
  destruct (run_observers k s0 (Z.of_nat (S n)) Hk Hmem0 Hweak0)
    as (s1 & Hrun1 & Hmem1 & Hsh1 & Hw1).
  { rewrite Hvars0. by rewrite decide_True by lia. }
  assert (Hlen : length gone ≤ S n).
  { replace (S n) with (length (seq 0 (S n))) by apply length_seq.
    apply submseteq_length.
    apply NoDup_submseteq; [done |]. intros x Hx. apply elem_of_seq.
    specialize (Hle x Hx). lia. }
  destruct (run_scope_exits gone s1 (S n) k) as (s2 & Hrun2 & Hmem2 & Hw2 & Hvars2);
    [done | | done | lia | done | done |].
  { intros x Hx. rewrite Hsh1, Hvars0. by rewrite decide_True by auto. }
  exists s2. split; [| split; [| split]].
  - unfold round_trip. rewrite app_comm_cons, run_app, Hrun0.
    by rewrite run_app, Hrun1.
  - rewrite Hmem2. by rewrite Hmem1.
  - intros x. by rewrite Hw2.
  - intros x. rewrite Hvars2, Hsh1, Hvars0.
    destruct (decide (x ∈ gone)).
    + rewrite decide_False; [done | tauto].
    + destruct (decide (x ≤ n)).
      * by rewrite decide_True.
      * rewrite decide_False; [done | tauto].
Qed.

(** C2. One [make_shared], [n] clones, [k] weak pointers, and then all
    [n + 1] shared pointers go out of scope in any order.  As long as at
    least one of them is left the log is empty and the strong count is the
    number of those left.  When the last one is gone the payload's
    destructor has run exactly once, whatever [k] is.  The control block is
    another matter: without weak pointers ([k = 0]) nothing deletes it, and
    it stays allocated with counts 0 and -1 although no pointer is left;
    with one weak pointer it is deleted in the last release while that weak
    pointer is still in scope; with more it stays, its weak count one
    short of the number of weak pointers. *)
Theorem round_trip_destroys_once n k order :
  (Z.of_nat n + 1 ≤ INT_MAX)%Z → (Z.of_nat k ≤ INT_MAX)%Z →
  order ≡ₚ seq 0 (S n) →
  (∀ j, j ≤ n →
     ∃ s, run (round_trip n k (take j order)) start = Ok s ∧
          events (mem s) = [] ∧
          blocks (mem s) !! 0
            = Some (ControlBlock (Z.of_nat (S n - j)) (Z.of_nat k))) ∧
  (∃ s, run (round_trip n k order) start = Ok s ∧
        shared_vars s = ∅ ∧
        (∀ x, weak_vars s !! x = if decide (x < k) then Some wp else None) ∧
        destructions 1 (mem s) = 1 ∧
        events (mem s) = Destroyed 1 :: (if decide (k = 1) then [Freed 0] else []) ∧
        block_frees 0 (mem s) = (if decide (k = 1) then 1 else 0) ∧
        blocks (mem s) !! 0 =
          (if decide (k = 1) then None
           else Some (ControlBlock 0 (Z.of_nat k - 1)))).
Proof.
  intros Hn Hk Hperm.
  assert (Hnd : NoDup order) by (rewrite Hperm; apply NoDup_seq).
  assert (Hin : ∀ x, x ∈ order ↔ x ≤ n).
  { intros x. rewrite Hperm, elem_of_seq. lia. }
  assert (Hlen : length order = S n).
  { rewrite Hperm. apply length_seq. }
  split.
  - intros j Hj.
    destruct (run_round_trip n k (take j order) Hn Hk) as (s & Hrun & Hmem & _).
    { eapply sublist_NoDup; [exact Hnd | apply sublist_take]. }
    { intros x Hx. apply Hin. by eapply subseteq_take. }
    exists s. split; [done |]. rewrite Hmem.
    destruct (decide (take j order = [])) as [Hnil|Hnil].
    + assert (j = 0) as ->.
      { apply (f_equal length) in Hnil. rewrite length_take_le in Hnil by lia.
        done. }
      simpl. split; [done |]. rewrite lookup_singleton_eq.
      do 3 f_equal; lia.
    + unfold after_exits. rewrite length_take_le by lia.
      rewrite decide_True by lia. simpl. split; [done |].
      by rewrite lookup_singleton_eq.
  - destruct (run_round_trip n k order Hn Hk Hnd) as (s & Hrun & Hmem & Hw & Hvars).
    { intros x. apply Hin. }
    exists s. split; [done |]. split.
    { apply map_eq. intros x. rewrite Hvars, lookup_empty.
      rewrite decide_False; [done |]. intros [Hx Hnx]. by apply Hnx, Hin. }
    split; [done |].
    assert (Hne : order ≠ []) by (intros ->; simpl in Hlen; lia).
    rewrite decide_False in Hmem by done.
    rewrite Hmem. unfold after_exits. rewrite Hlen.
    rewrite decide_False by lia.
    destruct (decide (k = 1)); simpl.
    + split; [done |]. split; [done |]. split; [done |]. apply lookup_empty.
    + split; [done |]. split; [done |]. split; [done |].
      by rewrite lookup_singleton_eq.
Qed.

Lemma round_trip_destroys_once_witness :
  ∃ s, run (round_trip 2 0 [1; 2; 0]) start = Ok s ∧
       shared_vars s = ∅ ∧
       destructions 1 (mem s) = 1 ∧
       block_frees 0 (mem s) = 0 ∧
       blocks (mem s) !! 0 = Some (ControlBlock 0 (-1)).
Proof.
  assert (Hn : (Z.of_nat 2 + 1 ≤ INT_MAX)%Z) by (vm_compute; discriminate).
  assert (Hk : (Z.of_nat 0 ≤ INT_MAX)%Z) by (vm_compute; discriminate).
  assert (Hperm : [1; 2; 0] ≡ₚ seq 0 3).
  { simpl. etransitivity; [apply Permutation_cons_append |]. simpl.
    etransitivity; [apply Permutation_cons_append |]. reflexivity. }
  destruct (round_trip_destroys_once 2 0 [1; 2; 0] Hn Hk Hperm)
    as (_ & s & Hrun & Hvars & _ & Hd & _ & Hf & Hb).
  exists s. split; [exact Hrun |]. split; [exact Hvars |].
  split; [exact Hd |]. split; [exact Hf |]. exact Hb.
Defined.

(** ** Further properties of the shared and weak pointers *)

Lemma heap_eta h : Heap (blocks h) (events h) (next_addr h) = h.
Proof. by destruct h. Qed.

Lemma system_eta s : System (mem s) (shared_vars s) (weak_vars s) = s.
Proof. by destruct s. Qed.

Lemma set_block_same c cb h : blocks h !! c = Some cb → set_block c cb h = h.
Proof.
  intros Hc. unfold set_block. rewrite insert_id by done. apply heap_eta.
Qed.

Lemma set_block_twice c cb1 cb2 h :
  set_block c cb2 (set_block c cb1 h) = set_block c cb2 h.
Proof. unfold set_block. simpl. by rewrite insert_insert_eq. Qed.

(** X5. Copy assignment and move assignment between two different shared
    pointers do what the destruction of the destination followed by copy
    (respectively move) construction from the source does, faults
    included. *)
Theorem shared_assign_is_end_then_construct s x y :
  x ≠ y → is_Some (shared_vars s !! y) →
  exec (SharedCopyAssign x y) s = run [SharedEnd x; SharedCopy x y] s ∧
  exec (SharedMoveAssign x y) s = run [SharedEnd x; SharedMove x y] s.
Proof.
  intros Hxy [other Hy]. split; simpl; unfold the_shared, new_shared, call.
  - destruct (shared_vars s !! x) as [this|] eqn:Hx; [| done].
    rewrite Hy. rewrite bool_decide_eq_false_2 by done.
    unfold shared_copy_assign, shared_dtor, mbind, M_bind, bind.
    destruct (release this (mem s)) as [[[] h1]|f]; [| done].
    simpl. unfold new_shared, the_shared, call. simpl.
    rewrite lookup_delete_eq, lookup_delete_ne, Hy by done.
    unfold shared_copy_ctor, mbind, M_bind, bind.
    destruct (control other) as [c|];
      [destruct (strong_fetch_add c 1 h1) as [[a h2]|f] |];
      simpl; rewrite ?insert_delete_eq; done.
  - destruct (shared_vars s !! x) as [this|] eqn:Hx; [| done].
    rewrite Hy. rewrite bool_decide_eq_false_2 by done.
    unfold shared_move_assign, shared_dtor, mbind, M_bind, bind.
    destruct (release this (mem s)) as [[[] h1]|f]; [| done].
    simpl. unfold new_shared, the_shared, call. simpl.
    rewrite lookup_delete_eq, lookup_delete_ne, Hy by done. simpl.
    do 2 f_equal. apply map_eq. intros z.
    destruct (decide (z = x)) as [->|Hzx]; [by rewrite !lookup_insert_eq |].
    rewrite !(lookup_insert_ne _ x) by done.
    destruct (decide (z = y)) as [->|Hzy]; [by rewrite !lookup_insert_eq |].
    rewrite !(lookup_insert_ne _ y) by done.
    by rewrite lookup_delete_ne.
Qed.

(** X11. Assigning a shared pointer to a weak pointer does what the
    destruction of the weak pointer followed by its construction from the
    shared pointer does, faults included. *)
Theorem weak_assign_is_end_then_construct s (j : nat) x :
  is_Some (shared_vars s !! x) →
  exec (WeakAssignShared j x) s = run [WeakEnd j; WeakFromShared j x] s.
Proof.
  intros [shared Hx]. simpl. unfold the_weak, the_shared, new_weak, call.
  destruct (weak_vars s !! j) as [this|] eqn:Hw; [| done].
  rewrite Hx.
  unfold weak_assign_shared, weak_dtor, mbind, M_bind, bind.
  destruct (reset this (mem s)) as [[r h1]|f]; [| done].
  simpl. unfold new_weak, the_shared, call. simpl.
  rewrite lookup_delete_eq, Hx.
  unfold weak_from_shared, mbind, M_bind, bind.
  destruct (control shared) as [c|];
    [destruct (add_weak c h1) as [[a h2]|f] |];
    simpl; rewrite ?insert_delete_eq; done.
Qed.

(** X6. Copy-assigning or move-assigning a shared pointer to itself changes
    nothing: no count, no log entry, no variable. *)
Theorem shared_self_assignment_is_noop s x :
  is_Some (shared_vars s !! x) →
  exec (SharedCopyAssign x x) s = Ok s ∧
  exec (SharedMoveAssign x x) s = Ok s.
Proof.
  intros [this Hx]. split; simpl; unfold the_shared, call; rewrite Hx;
    rewrite bool_decide_eq_true_2 by done; simpl.
  - rewrite insert_id by done. by rewrite system_eta.
  - rewrite insert_insert_eq, insert_id by done. by rewrite system_eta.
Qed.

Lemma control_block_eta cb : ControlBlock (strong_count cb) (weak_count cb) = cb.
Proof. by destruct cb. Qed.

(** X8. A copy of a shared pointer that goes out of scope again leaves the
    whole state as it was, provided the strong count is not 0 and below
    [INT_MAX] (or the source is empty). *)
Theorem temporary_copy_restores s x y v :
  shared_vars s !! x = None → shared_vars s !! y = Some v →
  match control v with
  | None => True
  | Some c => ∃ cb, blocks (mem s) !! c = Some cb ∧
                    (INT_MIN ≤ strong_count cb < INT_MAX)%Z ∧
                    strong_count cb ≠ 0%Z
  end →
  run [SharedCopy x y; SharedEnd x] s = Ok s.
Proof.
  intros Hx Hy Hblock. simpl. unfold new_shared, the_shared, call.
  rewrite Hx, Hy. unfold shared_copy_ctor.
  destruct (control v) as [c|] eqn:Hctl.
  - destruct Hblock as (cb & Hcb & Hrange & Hnz).
    unfold mbind, M_bind, bind.
    rewrite (strong_fetch_add_eq c 1 (mem s) cb Hcb). simpl.
    unfold the_shared, call. simpl. rewrite lookup_insert_eq.
    unfold shared_dtor.
    rewrite (release_not_last _ _ c
               (ControlBlock (wrap_int (strong_count cb + 1)) (weak_count cb)));
      [| done | simpl; apply lookup_insert_eq |].
    2:{ simpl. rewrite wrap_int_id by (unfold INT_MIN, INT_MAX in *; lia). lia. }
    simpl. rewrite set_block_twice.
    rewrite (wrap_int_id (strong_count cb + 1))
      by (unfold INT_MIN, INT_MAX in *; lia).
    replace (strong_count cb + 1 - 1)%Z with (strong_count cb) by lia.
    rewrite wrap_int_id by (unfold INT_MIN, INT_MAX in *; lia).
    rewrite control_block_eta, set_block_same by done.
    rewrite delete_insert_id by done. by rewrite system_eta.
  - simpl. unfold the_shared, call. simpl. rewrite lookup_insert_eq.
    unfold shared_dtor. rewrite release_empty by done.
    rewrite delete_insert_id by done. by rewrite system_eta.
Qed.

Lemma temporary_copy_restores_witness :
  let s := System (Heap {[ 0 := ControlBlock 1 0 ]} [] 2)
                  {[ 0 := SharedPtr (Some 1) (Some 0) ]} ∅ in
  run [SharedCopy 1 0; SharedEnd 1] s = Ok s.
Proof.
  intros s.
  apply (temporary_copy_restores s 1 0 (SharedPtr (Some 1) (Some 0)));
    [reflexivity | reflexivity |].
  simpl. exists (ControlBlock 1 0). split; [reflexivity |].
  split; [unfold INT_MIN, INT_MAX; simpl; lia | discriminate].
Defined.

(** X10. A weak pointer made from a shared pointer and going out of scope
    again restores the state only if the weak count was not 0 before.  If
    it was 0 (no other weak pointer), the weak pointer's destruction
    deletes the control block while the shared pointer is still in
    scope. *)
Theorem temporary_weak_pointer s (j : nat) y v c cb :
  weak_vars s !! j = None → shared_vars s !! y = Some v →
  control v = Some c → blocks (mem s) !! c = Some cb →
  (INT_MIN ≤ weak_count cb < INT_MAX)%Z →
  run [WeakFromShared j y; WeakEnd j] s =
    Ok (if decide (weak_count cb = 0%Z)
        then System (drop_block c (mem s)) (shared_vars s) (weak_vars s)
        else s).
Proof.
  intros Hj Hy Hctl Hcb Hrange. simpl. unfold new_weak, the_shared, call.
  rewrite Hj, Hy. unfold weak_from_shared. rewrite Hctl.
  unfold mbind, M_bind, bind. rewrite (add_weak_eq c (mem s) cb Hcb). simpl.
  unfold the_weak, call. simpl. rewrite lookup_insert_eq.
  unfold weak_dtor, mbind, M_bind, bind.
  rewrite (reset_eq _ _ c
             (ControlBlock (strong_count cb) (wrap_int (weak_count cb + 1))));
    [| done | simpl; apply lookup_insert_eq].
  simpl. rewrite (wrap_int_id (weak_count cb + 1))
    by (unfold INT_MIN, INT_MAX in *; lia).
  rewrite delete_insert_id by done.
  destruct (decide (weak_count cb = 0%Z)) as [Hz|Hnz].
  - rewrite decide_True by lia. by rewrite drop_set_block.
  - rewrite decide_False by lia. rewrite set_block_twice.
    replace (weak_count cb + 1 - 1)%Z with (weak_count cb) by lia.
    rewrite wrap_int_id by (unfold INT_MIN, INT_MAX in *; lia).
    rewrite control_block_eta, set_block_same by done.
    by rewrite system_eta.
Qed.

Lemma temporary_weak_pointer_witness :
  let s := System (Heap {[ 0 := ControlBlock 1 0 ]} [] 2)
                  {[ 0 := SharedPtr (Some 1) (Some 0) ]} ∅ in
  run [WeakFromShared 0 0; WeakEnd 0] s
    = Ok (System (drop_block 0 (mem s)) (shared_vars s) (weak_vars s)).
Proof.
  intros s.
  apply (temporary_weak_pointer s 0 0 (SharedPtr (Some 1) (Some 0)) 0
           (ControlBlock 1 0)); try reflexivity.
  unfold INT_MIN, INT_MAX; simpl; lia.
Defined.

Lemma add_weak_frame c h u h' c' :
  add_weak c h = Ok (u, h') → c ≠ c' →
  blocks h' !! c' = blocks h !! c' ∧ next_addr h' = next_addr h.
Proof.
  intros Hrun Hne. destruct (blocks h !! c) as [cb|] eqn:Hc.
  - rewrite (add_weak_eq c h cb Hc) in Hrun. injection Hrun as <- <-.
    simpl. by rewrite lookup_insert_ne.
  - by rewrite (add_weak_freed c h Hc) in Hrun.
Qed.

Lemma shared_copy_ctor_frame v h r h' c' :
  shared_copy_ctor v h = Ok (r, h') → control v ≠ Some c' →
  blocks h' !! c' = blocks h !! c'.
Proof.
  unfold shared_copy_ctor. intros Hrun Hne.
  destruct (control v) as [c|] eqn:Hctl.
  - unfold mbind, M_bind, bind in Hrun.
    destruct (blocks h !! c) as [cb|] eqn:Hc.
    + rewrite (strong_fetch_add_eq c 1 h cb Hc) in Hrun.
      injection Hrun as <- <-. simpl. rewrite lookup_insert_ne; [done | congruence].
    + unfold strong_fetch_add, mbind, M_bind, bind, read_block in Hrun.
      by rewrite Hc in Hrun.
  - by injection Hrun as <- <-.
Qed.

Lemma weak_from_shared_frame v h r h' c' :
  weak_from_shared v h = Ok (r, h') → control v ≠ Some c' →
  blocks h' !! c' = blocks h !! c'.
Proof.
  unfold weak_from_shared. intros Hrun Hne.
  destruct (control v) as [c|] eqn:Hctl.
  - unfold mbind, M_bind, bind in Hrun.
    destruct (add_weak c h) as [[[] h1]|f] eqn:Hadd; [| done].
    injection Hrun as <- <-.
    apply (add_weak_frame c h _ _ c') in Hadd as [? _]; [done | congruence].
  - by injection Hrun as <- <-.
Qed.

Lemma weak_copy_ctor_frame w h r h' c' :
  weak_copy_ctor w h = Ok (r, h') → wcontrol w ≠ Some c' →
  blocks h' !! c' = blocks h !! c'.
Proof.
  unfold weak_copy_ctor. intros Hrun Hne.
  destruct (wcontrol w) as [c|] eqn:Hctl.
  - unfold mbind, M_bind, bind in Hrun.
    destruct (add_weak c h) as [[[] h1]|f] eqn:Hadd; [| done].
    injection Hrun as <- <-.
    apply (add_weak_frame c h _ _ c') in Hadd as [? _]; [done | congruence].
  - by injection Hrun as <- <-.
Qed.

(** X4. A statement changes no control block but those of the pointers it
    names and the one it allocates. *)
Theorem statements_touch_only_named_blocks st s s' c :
  exec st s = Ok s' →
  Some c ∉ reach st s →
  c ≠ next_addr (mem s) →
  blocks (mem s') !! c = blocks (mem s) !! c.
Proof.
  intros Hrun Hreach Hfresh.
  assert (Hsh : ∀ x v, shared_vars s !! x = Some v →
                       shared_block s x ∈ reach st s → control v ≠ Some c).
  { intros x v Hx Hin Hc. apply Hreach. unfold shared_block in Hin.
    rewrite Hx in Hin. simpl in Hin. by rewrite <-Hc. }
  assert (Hwk : ∀ j w, weak_vars s !! j = Some w →
                       weak_block s j ∈ reach st s → wcontrol w ≠ Some c).
  { intros j w Hj Hin Hc. apply Hreach. unfold weak_block in Hin.
    rewrite Hj in Hin. simpl in Hin. by rewrite <-Hc. }
  destruct st as
    [x | x raw | x throws | x y | x y | x y | x y | x
     | j | j x | j j' | j x | j j' | j];
    unfold exec, new_shared, new_weak, the_shared, the_weak, call in Hrun;
    simpl in Hsh, Hwk;
    repeat match type of Hrun with
    | context [shared_vars s !! ?x] =>
        let v := fresh "v" in let Hv := fresh "Hv" in
        destruct (shared_vars s !! x) as [v|] eqn:Hv; try discriminate Hrun
    | context [weak_vars s !! ?x] =>
        let v := fresh "w" in let Hv := fresh "Hw" in
        destruct (weak_vars s !! x) as [v|] eqn:Hv; try discriminate Hrun
    end.
  - by injection Hrun as <-.
  - unfold shared_from_raw in Hrun. injection Hrun as <-. simpl.
    by rewrite lookup_insert_ne.
  - unfold make_shared in Hrun. destruct throws; injection Hrun as <-; simpl;
      by rewrite lookup_insert_ne.
  - destruct (shared_copy_ctor v (mem s)) as [[r h']|f] eqn:Hcall; [| done].
    injection Hrun as <-. simpl.
    eapply shared_copy_ctor_frame; [done |].
    apply (Hsh y); [done |]. set_solver.
  - simpl in Hrun. by injection Hrun as <-.
  - destruct (shared_copy_assign (bool_decide (x = y)) v v0 (mem s))
      as [[r h']|f] eqn:Hcall; [| done].
    injection Hrun as <-. simpl. unfold shared_copy_assign in Hcall.
    case_bool_decide; [by injection Hcall as <- <- |].
    unfold mbind, M_bind, bind in Hcall.
    destruct (release v (mem s)) as [[[] h1]|f] eqn:Hrel; [| done].
    change (shared_copy_ctor v0 h1 = Ok (r, h')) in Hcall.
    rewrite (shared_copy_ctor_frame _ _ _ _ c Hcall)
      by (apply (Hsh y); [done | set_solver]).
    eapply release_frame; [done |]. apply (Hsh x); [done | set_solver].
  - destruct (shared_move_assign (bool_decide (x = y)) v v0 (mem s))
      as [[r h']|f] eqn:Hcall; [| done].
    injection Hrun as <-. simpl. unfold shared_move_assign in Hcall.
    case_bool_decide; [by injection Hcall as <- <- |].
    unfold mbind, M_bind, bind in Hcall.
    destruct (release v (mem s)) as [[[] h1]|f] eqn:Hrel; [| done].
    injection Hcall as <- <-.
    eapply release_frame; [done |]. apply (Hsh x); [done | set_solver].
  - destruct (shared_dtor v (mem s)) as [[[] h']|f] eqn:Hcall; [| done].
    injection Hrun as <-. simpl.
    eapply release_frame; [done |]. apply (Hsh x); [done | set_solver].
  - by injection Hrun as <-.
  - destruct (weak_from_shared v (mem s)) as [[r h']|f] eqn:Hcall; [| done].
    injection Hrun as <-. simpl.
    eapply weak_from_shared_frame; [done |].
    apply (Hsh x); [done | set_solver].
  - destruct (weak_copy_ctor w (mem s)) as [[r h']|f] eqn:Hcall; [| done].
    injection Hrun as <-. simpl.
    eapply weak_copy_ctor_frame; [done |].
    apply (Hwk j'); [done | set_solver].
  - destruct (weak_assign_shared w v (mem s)) as [[r h']|f] eqn:Hcall; [| done].
    injection Hrun as <-. simpl.
    unfold weak_assign_shared, mbind, M_bind, bind in Hcall.
    destruct (reset w (mem s)) as [[r1 h1]|f] eqn:Hres; [| done].
    change (weak_from_shared v h1 = Ok (r, h')) in Hcall.
    rewrite (weak_from_shared_frame _ _ _ _ c Hcall)
      by (apply (Hsh x); [done | set_solver]).
    eapply reset_frame; [done |]. apply (Hwk j); [done | set_solver].
  - by injection Hrun as <-.
  - destruct (weak_dtor w (mem s)) as [[[] h']|f] eqn:Hcall; [| done].
    injection Hrun as <-. simpl.
    unfold weak_dtor, mbind, M_bind, bind in Hcall.
    destruct (reset w (mem s)) as [[r1 h1]|f] eqn:Hres; [| done].
    injection Hcall as <-.
    eapply reset_frame; [done |]. apply (Hwk j); [done | set_solver].
Qed.

Lemma exec_shape st s s' :
  exec st s = Ok s' →
  (may_throw st = true ∧
   s' = System (Heap (<[next_addr (mem s) := control_block_ctor]> (blocks (mem s)))
                     (events (mem s)) (next_addr (mem s) + 2))
               (shared_vars s) (weak_vars s)) ∨
  (∃ d, moves d s s') ∨
  (∃ s1 d1 d2, moves d1 s s1 ∧ size (shared_vars s1) = size (shared_vars s) ∧
               moves d2 s1 s') ∨
  (∃ x raw n', shared_vars s !! x = None ∧ next_addr (mem s) < n' ∧
     s' = System (Heap (<[next_addr (mem s) := control_block_ctor]>
                          (blocks (mem s))) (events (mem s)) n')
                 (<[x := SharedPtr raw (Some (next_addr (mem s)))]>
                    (shared_vars s))
                 (weak_vars s)).
Proof.
  intros Hrun. destruct st as
    [x | x p | x throws | x y | x y | x y | x y | x
     | w0 | w0 x | w0 w1 | w0 x | w0 w1 | w0].
  - (* SharedDefault *)
    open_exec Hrun. injection Hrun as <-. right. left. eexists.
    apply moves_still; [apply strong_effect_refl |].
    intros c. by rewrite owners_insert_new.
  - (* SharedFromRaw *)
    open_exec Hrun. unfold shared_from_raw in Hrun. injection Hrun as <-.
    do 3 right. exists x, p, (S (next_addr (mem s))). split; [done |].
    split; [lia | done].
  - (* MakeShared *)
    open_exec Hrun. unfold make_shared in Hrun. destruct throws.
    + injection Hrun as <-. left. done.
    + injection Hrun as <-. do 3 right.
      exists x, (Some (next_addr (mem s) + 1)), (next_addr (mem s) + 2).
      split; [done |]. split; [lia | done].
  - (* SharedCopy *)
    open_exec Hrun.
    destruct (shared_copy_ctor v (mem s)) as [[r h']|f] eqn:Hcopy; [| done].
    injection Hrun as <-.
    apply shared_copy_ctor_effect in Hcopy as (-> & Heff & Hsome).
    rewrite shared_eta. right. left. eexists.
    apply moves_up_by; [done | |].
    + intros c. by rewrite owners_insert_new.
    + intros c Hc. destruct (Hsome c Hc) as [cb Hcb]. exists cb.
      split; [done |]. left. by eapply owners_pos.
  - (* SharedMove *)
    open_exec Hrun. simpl in Hrun. injection Hrun as <-.
    rewrite shared_eta.
    assert (x ≠ y) by congruence.
    right. left. eexists.
    apply moves_still; [apply strong_effect_refl |].
    intros c.
    rewrite owners_insert_new by (by rewrite lookup_insert_ne).
    pose proof (owners_insert c y (shared_vars s) (SharedPtr None None) v Hv0) as Ho.
    change (refers c (SharedPtr None None)) with 0 in Ho. lia.
  - (* SharedCopyAssign *)
    open_exec Hrun.
    destruct (shared_copy_assign (bool_decide (x = y)) v v0 (mem s))
      as [[r h']|f] eqn:Hassign; [| done].
    injection Hrun as <-. unfold shared_copy_assign in Hassign.
    case_bool_decide as Hxy.
    + injection Hassign as <- <-. right. left. eexists.
      apply moves_still; [apply strong_effect_refl |].
      intros c. by rewrite insert_id.
    + unfold mbind, M_bind, bind in Hassign.
      destruct (release v (mem s)) as [[[] h1]|f] eqn:Hrel; [| done].
      apply release_effect in Hrel as [Hrel _].
      change (shared_copy_ctor v0 h1 = Ok (r, h')) in Hassign.
      apply shared_copy_ctor_effect in Hassign as (-> & Heff & Hsome).
      rewrite shared_eta.
      set (s1 := System h1 (<[x := shared_default]> (shared_vars s)) (weak_vars s)).
      right. right. left. exists s1. eexists. eexists.
      split; [| split].
      * apply moves_down with (x := x); [done | done |].
        intros c.
        pose proof (owners_insert c x (shared_vars s) shared_default v Hv) as Ho.
        rewrite refers_empty in Ho. lia.
      * simpl. apply map_size_insert_Some. eauto.
      * replace (<[x := v0]> (shared_vars s))
          with (<[x := v0]> (shared_vars s1))
          by (simpl; apply insert_insert_eq).
        apply (moves_up_by s1 v0); [done | |].
        -- intros c.
           pose proof (owners_insert c x (shared_vars s1) v0 shared_default) as Ho.
           rewrite refers_empty in Ho.
           specialize (Ho ltac:(simpl; apply lookup_insert_eq)). lia.
        -- intros c Hc. destruct (Hsome c Hc) as [cb Hcb]. exists cb.
           split; [done |]. left. eapply (owners_pos c y); [| done].
           simpl. by rewrite lookup_insert_ne.
  - (* SharedMoveAssign *)
    open_exec Hrun.
    destruct (shared_move_assign (bool_decide (x = y)) v v0 (mem s))
      as [[r h']|f] eqn:Hassign; [| done].
    injection Hrun as <-. unfold shared_move_assign in Hassign.
    case_bool_decide as Hxy.
    + injection Hassign as <- <-. subst y. simpl.
      assert (v0 = v) by congruence. subst v0.
      right. left. eexists.
      apply moves_still; [apply strong_effect_refl |].
      intros c. by rewrite insert_insert_eq, insert_id.
    + unfold mbind, M_bind, bind in Hassign.
      destruct (release v (mem s)) as [[[] h1]|f] eqn:Hrel; [| done].
      apply release_effect in Hrel as [Hrel _].
      injection Hassign as <- <-. simpl. rewrite shared_eta.
      right. left. eexists.
      apply moves_down with (x := x); [done | done |].
      intros c.
      pose proof (owners_insert c y (shared_vars s) (SharedPtr None None) v0 Hv0)
        as Ho1.
      change (refers c (SharedPtr None None)) with 0 in Ho1.
      pose proof (owners_insert c x (<[y := SharedPtr None None]> (shared_vars s))
                    v0 v) as Ho2.
      rewrite lookup_insert_ne in Ho2 by done. specialize (Ho2 Hv). lia.
  - (* SharedEnd *)
    open_exec Hrun.
    destruct (shared_dtor v (mem s)) as [[[] h']|f] eqn:Hrel; [| done].
    injection Hrun as <-.
    apply release_effect in Hrel as [Hrel _].
    right. left. eexists.
    apply moves_down with (x := x); [done | done |].
    intros c. by apply owners_delete.
  - (* WeakDefault *)
    open_exec Hrun. injection Hrun as <-. right. left. eexists.
    apply moves_still; [apply strong_effect_refl | done].
  - (* WeakFromShared *)
    open_exec Hrun.
    destruct (weak_from_shared v (mem s)) as [[r h']|f] eqn:Hcall; [| done].
    injection Hrun as <-. apply weak_from_shared_effect in Hcall as [_ Heff].
    right. left. eexists. by apply moves_still.
  - (* WeakCopy *)
    open_exec Hrun.
    destruct (weak_copy_ctor w (mem s)) as [[r h']|f] eqn:Hcall; [| done].
    injection Hrun as <-. apply weak_copy_ctor_effect in Hcall as [_ Heff].
    right. left. eexists. by apply moves_still.
  - (* WeakAssignShared *)
    open_exec Hrun.
    destruct (weak_assign_shared w v (mem s)) as [[r h']|f] eqn:Hcall; [| done].
    injection Hrun as <-. apply weak_assign_shared_effect in Hcall as [_ Heff].
    right. left. eexists. by apply moves_still.
  - (* WeakAssignWeak *)
    open_exec Hrun. injection Hrun as <-. right. left. eexists.
    apply moves_still; [apply strong_effect_refl | done].
  - (* WeakEnd *)
    open_exec Hrun.
    destruct (weak_dtor w (mem s)) as [[[] h']|f] eqn:Hcall; [| done].
    injection Hrun as <-. apply weak_dtor_effect in Hcall.
    right. left. eexists. by apply moves_still.
Qed.

Lemma moves_counted d s s' :
  consistent s → in_bounds s → moves d s s' → counted s → counted s'.
Proof.
  intros [Hbb Hsb Hso] Hsize [Hnext Hblocks Howners Hunit Hup] Hcount.
  intros c cb' Hc. destruct (Hblocks c cb' Hc) as (cb & Hcb & Hstrong).
  pose proof (Hcount c cb Hcb) as Heq.
  pose proof (Howners c) as Ho.
  pose proof (owners_le_size c (shared_vars s)) as Hle.
  rewrite Hstrong.
  destruct (decide (d c = 0%Z)) as [Hz|Hnz]; [lia |].
  rewrite wrap_int_id; [lia |].
  unfold in_bounds, INT_MIN, INT_MAX in *.
  destruct (Hunit c) as [?|[?|?]]; lia.
Qed.

Lemma exec_counted st s s' :
  consistent s → in_bounds s → may_throw st = false →
  exec st s = Ok s' → counted s → counted s'.
Proof.
  intros Hcons Hb Hthrow Hrun Hcount.
  destruct (exec_shape st s s' Hrun)
    as [[Ht _] | [[d Hm] | [(s1 & d1 & d2 & Hm1 & Hsz & Hm2)
                           | (x & raw & n' & Hx & Hn & ->)]]].
  - congruence.
  - by eapply moves_counted.
  - assert (counted s1) by (by eapply moves_counted).
    eapply (moves_counted d2 s1); [by eapply moves_consistent | | done | done].
    unfold in_bounds in *. by rewrite Hsz.
  - destruct Hcons as [Hbb Hsb Hso].
    set (n := next_addr (mem s)) in *.
    assert (Hnone : owners n (shared_vars s) = 0).
    { destruct (decide (1 ≤ owners n (shared_vars s))) as [Hpos|]; [| lia].
      destruct (owners_pos_inv n _ Hpos) as (x0 & v & Hx0 & Hv).
      pose proof (Hsb x0 v n Hx0 Hv). lia. }
    intros c cb Hc. simpl in *. rewrite owners_insert_new by done.
    unfold refers. simpl.
    destruct (decide (c = n)) as [->|Hne].
    + rewrite lookup_insert_eq in Hc. injection Hc as <-. simpl.
      rewrite Hnone. by rewrite decide_True.
    + rewrite lookup_insert_ne in Hc by done.
      rewrite decide_False by congruence. rewrite (Hcount c cb Hc). lia.
Qed.

Lemma counted_start : counted start.
Proof. intros c cb Hc. simpl in Hc. by rewrite lookup_empty in Hc. Qed.

Lemma run_counted prog : ∀ s s',
  consistent s →
  (Z.of_nat (size (shared_vars s)) + Z.of_nat (length prog) + 1 ≤ INT_MAX)%Z →
  Forall (λ st, may_throw st = false) prog →
  run prog s = Ok s' → counted s → counted s'.
Proof.
  induction prog as [|st rest IH]; intros s s' Hcons Hb Hthrow Hrun Hcount.
  - by injection Hrun as <-.
  - simpl in Hrun. destruct (exec st s) as [s1|f] eqn:Hstep; [| done].
    simpl length in Hb. apply Forall_cons in Hthrow as [Hst Hrest].
    assert (Hb0 : in_bounds s) by (unfold in_bounds; lia).
    pose proof (exec_size st s s1 Hstep) as Hsize.
    destruct (exec_preserved st s s1 Hcons Hb0 Hstep) as [Hcons1 _].
    apply (IH s1); [done | lia | done | done |].
    exact (exec_counted st s s1 Hcons Hb0 Hst Hstep Hcount).
Qed.

(** X1. On every run whose payload constructors do not throw, [use_count()]
    of a shared or weak pointer whose control block is allocated returns
    the number of shared pointers in scope that refer to that block, which
    is at least 1 for a shared pointer.  (Runs of fewer than 2^31 - 1
    statements, on which no counter wraps.) *)
Theorem use_count_is_number_of_owners prog s :
  (Z.of_nat (length prog) + 1 ≤ INT_MAX)%Z →
  Forall (λ st, may_throw st = false) prog →
  run prog start = Ok s →
  (∀ x v c, shared_vars s !! x = Some v → control v = Some c →
            is_Some (blocks (mem s) !! c) →
            use_count v (mem s)
              = Ok (Z.of_nat (owners c (shared_vars s)), mem s) ∧
            1 ≤ owners c (shared_vars s)) ∧
  (∀ (j : nat) w c, weak_vars s !! j = Some w → wcontrol w = Some c →
            is_Some (blocks (mem s) !! c) →
            weak_use_count w (mem s)
              = Ok (Z.of_nat (owners c (shared_vars s)), mem s)).
Proof.
  intros Hlen Hthrow Hrun.
  assert (Hcount : counted s).
  { apply (run_counted prog start s); [apply consistent_start | | done | done |].
    - change (size (shared_vars start)) with 0. lia.
    - apply counted_start. }
  split.
  - intros x v c Hx Hctl [cb Hcb]. split; [| by eapply owners_pos].
    unfold use_count. rewrite Hctl. rewrite (strong_load_eq c _ cb Hcb).
    by rewrite (Hcount c cb Hcb).
  - intros j w c Hj Hctl [cb Hcb].
    unfold weak_use_count. rewrite Hctl. rewrite (strong_load_eq c _ cb Hcb).
    by rewrite (Hcount c cb Hcb).
Qed.

Lemma add_weak_log c h u h' : add_weak c h = Ok (u, h') → events h' = events h.
Proof.
  intros Hrun. destruct (blocks h !! c) as [cb|] eqn:Hc.
  - rewrite (add_weak_eq c h cb Hc) in Hrun. by injection Hrun as <- <-.
  - by rewrite (add_weak_freed c h Hc) in Hrun.
Qed.

Lemma release_weak_log c h u h' :
  release_weak c h = Ok (u, h') →
  ∃ frees, events h' = events h ++ frees ∧ Forall is_free frees.
Proof.
  intros Hrun. destruct (blocks h !! c) as [cb|] eqn:Hc.
  - rewrite (release_weak_eq c h cb Hc) in Hrun. injection Hrun as <- <-.
    destruct (decide (weak_count cb = 1%Z)).
    + exists [Freed c]. split; [done |]. apply Forall_singleton. by exists c.
    + exists []. split; [simpl; by rewrite app_nil_r | done].
  - by rewrite (release_weak_freed c h Hc) in Hrun.
Qed.

Lemma reset_log w h r h' :
  reset w h = Ok (r, h') →
  ∃ frees, events h' = events h ++ frees ∧ Forall is_free frees.
Proof.
  unfold reset. destruct (wcontrol w) as [c|].
  - unfold mbind, M_bind, bind.
    destruct (release_weak c h) as [[[] h1]|f] eqn:Hrel; [| done].
    intros [= <- <-]. by eapply release_weak_log.
  - intros [= <- <-]. exists []. by rewrite app_nil_r.
Qed.

Lemma shared_copy_ctor_log v h r h' :
  shared_copy_ctor v h = Ok (r, h') → events h' = events h.
Proof.
  unfold shared_copy_ctor. destruct (control v) as [c|].
  - unfold mbind, M_bind, bind.
    destruct (blocks h !! c) as [cb|] eqn:Hc.
    + rewrite (strong_fetch_add_eq c 1 h cb Hc). by intros [= <- <-].
    + unfold strong_fetch_add, mbind, M_bind, bind, read_block. by rewrite Hc.
  - by intros [= <- <-].
Qed.

Lemma weak_from_shared_log v h r h' :
  weak_from_shared v h = Ok (r, h') → events h' = events h.
Proof.
  unfold weak_from_shared. destruct (control v) as [c|].
  - unfold mbind, M_bind, bind.
    destruct (add_weak c h) as [[[] h1]|f] eqn:Hadd; [| done].
    intros [= <- <-]. by eapply add_weak_log.
  - by intros [= <- <-].
Qed.

Lemma weak_copy_ctor_log w h r h' :
  weak_copy_ctor w h = Ok (r, h') → events h' = events h.
Proof.
  unfold weak_copy_ctor. destruct (wcontrol w) as [c|].
  - unfold mbind, M_bind, bind.
    destruct (add_weak c h) as [[[] h1]|f] eqn:Hadd; [| done].
    intros [= <- <-]. by eapply add_weak_log.
  - by intros [= <- <-].
Qed.

(** What a release writes to the log: nothing, unless it finds the strong
    count 1; then the destructor of the payload its pointer names, possibly
    followed by the deletion of the block, and the block is left with
    strong count 0 if it is left at all. *)
Lemma release_log v h u h' :
  release v h = Ok (u, h') →
  events h' = events h ∨
  ∃ c cb p frees,
    control v = Some c ∧ ptr v = Some p ∧ blocks h !! c = Some cb ∧
    strong_count cb = 1%Z ∧
    events h' = events h ++ Destroyed p :: frees ∧ Forall is_free frees ∧
    ∀ cb', blocks h' !! c = Some cb' → strong_count cb' = 0%Z.
Proof.
  intros Hrun. destruct (control v) as [c|] eqn:Hctl.
  2:{ rewrite (release_empty v h Hctl) in Hrun. injection Hrun as <- <-.
      by left. }
  destruct (blocks h !! c) as [cb|] eqn:Hc.
  2:{ by rewrite (release_freed v h c Hctl Hc) in Hrun. }
  destruct (decide (strong_count cb = 1%Z)) as [Hone|Hone].
  - destruct (ptr v) as [p|] eqn:Hp.
    + rewrite (release_last v h c cb p Hctl Hp Hc Hone) in Hrun.
      injection Hrun as <- <-. right.
      destruct (decide (weak_count cb = 1%Z)).
      * exists c, cb, p, [Freed c].
        split; [done |]. split; [done |]. split; [done |]. split; [done |].
        split; [simpl; by rewrite <-app_assoc |].
        split; [apply Forall_singleton; by exists c |].
        intros cb' Hcb'. simpl in Hcb'. by rewrite lookup_delete_eq in Hcb'.
      * exists c, cb, p, [].
        split; [done |]. split; [done |]. split; [done |]. split; [done |].
        split; [done |]. split; [done |].
        intros cb' Hcb'. simpl in Hcb'. rewrite lookup_insert_eq in Hcb'.
        by injection Hcb' as <-.
    + unfold release in Hrun. rewrite Hctl, Hp in Hrun.
      unfold mbind, M_bind, bind in Hrun.
      rewrite (strong_fetch_sub_eq c 1 h cb Hc) in Hrun.
      rewrite decide_True in Hrun by done. discriminate.
  - rewrite (release_not_last v h c cb Hctl Hc Hone) in Hrun.
    injection Hrun as <- <-. by left.
Qed.

(** What a statement writes to the log. *)
Lemma exec_log st s s' :
  exec st s = Ok s' →
  ∃ new, events (mem s') = events (mem s) ++ new ∧
    (Forall is_free new ∨
     ∃ x v c cb p frees,
       shared_vars s !! x = Some v ∧ control v = Some c ∧ ptr v = Some p ∧
       blocks (mem s) !! c = Some cb ∧ strong_count cb = 1%Z ∧
       new = Destroyed p :: frees ∧ Forall is_free frees ∧
       ((∀ cb', blocks (mem s') !! c = Some cb' → strong_count cb' = 0%Z) ∨
        (∃ y vy, x ≠ y ∧ shared_vars s !! y = Some vy ∧ control vy = Some c))).
Proof.
  intros Hrun.
  assert (Hnone : ∀ h', events h' = events (mem s) →
            ∃ new, events h' = events (mem s) ++ new ∧
              (Forall is_free new ∨
               ∃ x v c cb p frees,
                 shared_vars s !! x = Some v ∧ control v = Some c ∧
                 ptr v = Some p ∧ blocks (mem s) !! c = Some cb ∧
                 strong_count cb = 1%Z ∧ new = Destroyed p :: frees ∧
                 Forall is_free frees ∧
                 ((∀ cb', blocks h' !! c = Some cb' → strong_count cb' = 0%Z) ∨
                  (∃ y vy, x ≠ y ∧ shared_vars s !! y = Some vy ∧
                           control vy = Some c)))).
  { intros h' Hev. exists []. split; [by rewrite app_nil_r |]. by left. }
  destruct st as
    [x | x raw | x throws | x y | x y | x y | x y | x
     | j | j x | j j' | j x | j j' | j]; open_exec Hrun.
  - injection Hrun as <-. by apply Hnone.
  - unfold shared_from_raw in Hrun. injection Hrun as <-. by apply Hnone.
  - unfold make_shared in Hrun.
    destruct throws; injection Hrun as <-; by apply Hnone.
  - destruct (shared_copy_ctor v (mem s)) as [[r h']|f] eqn:Hcall; [| done].
    injection Hrun as <-. apply Hnone. by eapply shared_copy_ctor_log.
  - simpl in Hrun. injection Hrun as <-. by apply Hnone.
  - destruct (shared_copy_assign (bool_decide (x = y)) v v0 (mem s))
      as [[r h']|f] eqn:Hcall; [| done].
    injection Hrun as <-. simpl. unfold shared_copy_assign in Hcall.
    case_bool_decide as Hxy; [injection Hcall as <- <-; by apply Hnone |].
    unfold mbind, M_bind, bind in Hcall.
    destruct (release v (mem s)) as [[[] h1]|f] eqn:Hrel; [| done].
    change (shared_copy_ctor v0 h1 = Ok (r, h')) in Hcall.
    pose proof (shared_copy_ctor_log _ _ _ _ Hcall) as Hlog.
    apply release_log in Hrel
      as [Hsame | (c & cb & p & frees & Hc & Hp & Hcb & Hone & Hev & Hfr & Hz)].
    + apply Hnone. congruence.
    + exists (Destroyed p :: frees). split; [congruence |]. right.
      exists x, v, c, cb, p, frees. repeat (split; [done |]).
      destruct (decide (control v0 = Some c)) as [Hy|Hy].
      * right. by exists y, v0.
      * left. intros cb' Hcb'.
        rewrite (shared_copy_ctor_frame _ _ _ _ c Hcall Hy) in Hcb'. auto.
  - destruct (shared_move_assign (bool_decide (x = y)) v v0 (mem s))
      as [[r h']|f] eqn:Hcall; [| done].
    injection Hrun as <-. simpl. unfold shared_move_assign in Hcall.
    case_bool_decide as Hxy; [injection Hcall as <- <-; by apply Hnone |].
    unfold mbind, M_bind, bind in Hcall.
    destruct (release v (mem s)) as [[[] h1]|f] eqn:Hrel; [| done].
    injection Hcall as <- <-.
    apply release_log in Hrel
      as [Hsame | (c & cb & p & frees & Hc & Hp & Hcb & Hone & Hev & Hfr & Hz)].
    + by apply Hnone.
    + exists (Destroyed p :: frees). split; [done |]. right.
      exists x, v, c, cb, p, frees. repeat (split; [done |]). by left.
  - destruct (shared_dtor v (mem s)) as [[[] h']|f] eqn:Hrel; [| done].
    injection Hrun as <-. simpl.
    apply release_log in Hrel
      as [Hsame | (c & cb & p & frees & Hc & Hp & Hcb & Hone & Hev & Hfr & Hz)].
    + by apply Hnone.
    + exists (Destroyed p :: frees). split; [done |]. right.
      exists x, v, c, cb, p, frees. repeat (split; [done |]). by left.
  - injection Hrun as <-. by apply Hnone.
  - destruct (weak_from_shared v (mem s)) as [[r h']|f] eqn:Hcall; [| done].
    injection Hrun as <-. apply Hnone. by eapply weak_from_shared_log.
  - destruct (weak_copy_ctor w (mem s)) as [[r h']|f] eqn:Hcall; [| done].
    injection Hrun as <-. apply Hnone. by eapply weak_copy_ctor_log.
  - destruct (weak_assign_shared w v (mem s)) as [[r h']|f] eqn:Hcall; [| done].
    injection Hrun as <-. simpl.
    unfold weak_assign_shared, mbind, M_bind, bind in Hcall.
    destruct (reset w (mem s)) as [[r1 h1]|f] eqn:Hres; [| done].
    change (weak_from_shared v h1 = Ok (r, h')) in Hcall.
    apply weak_from_shared_log in Hcall.
    apply reset_log in Hres as (frees & Hev & Hfr).
    exists frees. split; [congruence | by left].
  - injection Hrun as <-. by apply Hnone.
  - destruct (weak_dtor w (mem s)) as [[[] h']|f] eqn:Hcall; [| done].
    injection Hrun as <-. simpl.
    unfold weak_dtor, mbind, M_bind, bind in Hcall.
    destruct (reset w (mem s)) as [[r1 h1]|f] eqn:Hres; [| done].
    injection Hcall as <-.
    apply reset_log in Hres as (frees & Hev & Hfr).
    exists frees. split; [done | by left].
Qed.



Lemma shared_pairs_insert (vars : gmap nat my_shared_ptr) x v :
  (∀ (z : nat) v0 c, vars !! z = Some v0 → control v0 = Some c → ptr v0 = Some (c + 1)) →
  (∀ c, control v = Some c → ptr v = Some (c + 1)) →
  ∀ (z : nat) v0 c, <[x := v]> vars !! z = Some v0 → control v0 = Some c →
            ptr v0 = Some (c + 1).
Proof.
  intros Hvars Hv z v0 c Hz. destruct (decide (z = x)) as [->|Hne].
  - rewrite lookup_insert_eq in Hz. injection Hz as <-. auto.
  - rewrite lookup_insert_ne in Hz by done. eauto.
Qed.

Lemma weak_pairs_insert (vars : gmap nat my_weak_ptr) (j : nat) w :
  (∀ (z : nat) w0 c, vars !! z = Some w0 → wcontrol w0 = Some c →
             wptr w0 = Some (c + 1)) →
  (∀ c, wcontrol w = Some c → wptr w = Some (c + 1)) →
  ∀ (z : nat) w0 c, <[j := w]> vars !! z = Some w0 → wcontrol w0 = Some c →
            wptr w0 = Some (c + 1).
Proof.
  intros Hvars Hw z w0 c Hz. destruct (decide (z = j)) as [->|Hne].
  - rewrite lookup_insert_eq in Hz. injection Hz as <-. auto.
  - rewrite lookup_insert_ne in Hz by done. eauto.
Qed.

Lemma exec_paired st s s' :
  paired s → adopts_raw st = false → exec st s = Ok s' → paired s'.
Proof.
  intros Hp Hraw Hrun.
  pose proof Hp as [Hsh Hwk].
  assert (Hnull : ∀ c, control (SharedPtr None None) = Some c →
                       ptr (SharedPtr None None) = Some (c + 1)) by done.
  destruct st as
    [x | x raw | x throws | x y | x y | x y | x y | x
     | j | j x | j j' | j x | j j' | j]; try discriminate Hraw;
    open_exec Hrun.
  - injection Hrun as <-. split; simpl; [| done].
    by apply shared_pairs_insert.
  - unfold make_shared in Hrun. destruct throws; injection Hrun as <-.
    + done.
    + split; simpl; [| done]. apply shared_pairs_insert; [done |].
      simpl. by intros c [= <-].
  - destruct (shared_copy_ctor v (mem s)) as [[r h']|f] eqn:Hcall; [| done].
    injection Hrun as <-.
    apply shared_copy_ctor_effect in Hcall as (-> & _ & _).
    split; simpl; [| done]. apply shared_pairs_insert; [done |]. simpl. eauto.
  - simpl in Hrun. injection Hrun as <-. split; simpl; [| done].
    apply shared_pairs_insert; [by apply shared_pairs_insert |]. simpl. eauto.
  - destruct (shared_copy_assign (bool_decide (x = y)) v v0 (mem s))
      as [[r h']|f] eqn:Hcall; [| done].
    injection Hrun as <-. unfold shared_copy_assign in Hcall.
    split; simpl; [| done]. apply shared_pairs_insert; [done |].
    case_bool_decide as Hxy.
    + injection Hcall as <- <-. eauto.
    + unfold mbind, M_bind, bind in Hcall.
      destruct (release v (mem s)) as [[[] h1]|f] eqn:Hrel; [| done].
      change (shared_copy_ctor v0 h1 = Ok (r, h')) in Hcall.
      apply shared_copy_ctor_effect in Hcall as (-> & _ & _). simpl. eauto.
  - destruct (shared_move_assign (bool_decide (x = y)) v v0 (mem s))
      as [[r h']|f] eqn:Hcall; [| done].
    injection Hrun as <-. unfold shared_move_assign in Hcall.
    split; simpl; [| done].
    case_bool_decide as Hxy.
    + injection Hcall as <- <-. simpl.
      apply shared_pairs_insert; [apply shared_pairs_insert; eauto | eauto].
    + unfold mbind, M_bind, bind in Hcall.
      destruct (release v (mem s)) as [[[] h1]|f] eqn:Hrel; [| done].
      injection Hcall as <- <-. simpl.
      apply shared_pairs_insert; [by apply shared_pairs_insert |]. simpl. eauto.
  - destruct (shared_dtor v (mem s)) as [[[] h']|f] eqn:Hrel; [| done].
    injection Hrun as <-. split; simpl; [| done].
    intros z v0 c Hz. apply lookup_delete_Some in Hz as [_ Hz]. eauto.
  - injection Hrun as <-. split; simpl; [done |].
    by apply weak_pairs_insert.
  - destruct (weak_from_shared v (mem s)) as [[r h']|f] eqn:Hcall; [| done].
    injection Hrun as <-. apply weak_from_shared_effect in Hcall as [-> _].
    split; simpl; [done |]. apply weak_pairs_insert; [done |]. simpl. eauto.
  - destruct (weak_copy_ctor w (mem s)) as [[r h']|f] eqn:Hcall; [| done].
    injection Hrun as <-. apply weak_copy_ctor_effect in Hcall as [-> _].
    split; simpl; [done |]. apply weak_pairs_insert; [done |]. simpl. eauto.
  - destruct (weak_assign_shared w v (mem s)) as [[r h']|f] eqn:Hcall; [| done].
    injection Hrun as <-. apply weak_assign_shared_effect in Hcall as [-> _].
    split; simpl; [done |]. apply weak_pairs_insert; [done |]. simpl. eauto.
  - injection Hrun as <-. split; simpl; [done |].
    apply weak_pairs_insert; [done |]. unfold weak_assign_weak. simpl. eauto.
  - destruct (weak_dtor w (mem s)) as [[[] h']|f] eqn:Hcall; [| done].
    injection Hrun as <-. split; simpl; [done |].
    intros z w0 c Hz. apply lookup_delete_Some in Hz as [_ Hz]. eauto.
Qed.

Lemma destructions_app p h h' new :
  events h' = events h ++ new →
  destructions p h' =
    destructions p h
    + length (filter (λ e, e = Destroyed p ∨ e = Deleted p) new).
Proof.
  intros Hev. unfold destructions. by rewrite Hev, filter_app, length_app.
Qed.

Lemma filter_frees p frees :
  Forall is_free frees →
  filter (λ e, e = Destroyed p ∨ e = Deleted p) frees = [].
Proof.
  induction 1 as [|e l [c ->] Hl IH]; [done |].
  rewrite filter_cons_False; [done |]. by intros [?|?].
Qed.

Lemma exec_next st s s' :
  exec st s = Ok s' → next_addr (mem s) ≤ next_addr (mem s').
Proof.
  intros Hrun.
  destruct (exec_shape st s s' Hrun)
    as [[_ ->] | [[d Hm] | [(s1 & d1 & d2 & Hm1 & _ & Hm2)
                           | (x & raw & n' & _ & Hn & ->)]]]; simpl.
  - lia.
  - rewrite (moves_next d s s' Hm). lia.
  - rewrite (moves_next d2 s1 s' Hm2), (moves_next d1 s s1 Hm1). lia.
  - lia.
Qed.

Lemma exec_destroyed_once st s s' :
  consistent s → in_bounds s → paired s → destroyed_once s →
  exec st s = Ok s' → destroyed_once s'.
Proof.
  intros Hcons Hb Hpair Honce Hrun.
  destruct (exec_preserved st s s' Hcons Hb Hrun) as [Hcons' Hkeep].
  destruct (exec_log st s s' Hrun) as (new & Hev & Hshape).
  assert (Hcarry : ∀ p, destructions p (mem s') = destructions p (mem s) →
            destructions p (mem s') = 0 ∨
            (destructions p (mem s') = 1 ∧ ∃ c, p = c + 1 ∧ object_gone c s')).
  { intros p Heq. rewrite Heq.
    destruct (Honce p) as [Hz | [Hone (c & -> & Hgone)]]; [by left |].
    right. split; [done |]. exists c. auto. }
  destruct Hshape as [Hfr | (x & v & c & cb & p0 & frees & Hx & Hctl & Hptr & Hcb
                             & Hone & -> & Hfr & Hafter)].
  - intros p. apply Hcarry.
    rewrite (destructions_app p (mem s) (mem s') new Hev).
    rewrite filter_frees by done. simpl. lia.
  - assert (Hp0 : p0 = c + 1).
    { destruct Hpair as [Hsh _]. specialize (Hsh x v c Hx Hctl). congruence. }
    subst p0.
    assert (Hzero : ∀ cb', blocks (mem s') !! c = Some cb' →
                           strong_count cb' = 0%Z).
    { destruct Hafter as [Hz | (y & vy & Hxy & Hy & Hcy)]; [done |].
      exfalso.
      pose proof (strong_owners s Hcons c cb Hcb) as Hso.
      pose proof (owners_delete c x (shared_vars s) v Hx) as Hd.
      assert (Hy' : delete x (shared_vars s) !! y = Some vy)
        by (by rewrite lookup_delete_ne).
      pose proof (owners_pos c y _ vy Hy' Hcy) as Hpos.
      unfold refers in Hd. rewrite decide_True in Hd by done. lia. }
    assert (Hbefore : destructions (c + 1) (mem s) = 0).
    { destruct (Honce (c + 1)) as [Hz | [_ (c' & Heq & [_ Hgone])]]; [done |].
      assert (c' = c) by lia. subst c'.
      specialize (Hgone cb Hcb). congruence. }
    intros p.
    destruct (decide (p = c + 1)) as [->|Hne].
    + right. rewrite (destructions_app (c + 1) (mem s) (mem s') _ Hev).
      rewrite filter_cons_True by (by left). simpl.
      rewrite filter_frees by done. simpl. split; [lia |].
      exists c. split; [done |]. split; [| done].
      pose proof (blocks_below s Hcons c cb Hcb) as Hlt.
      pose proof (exec_next st s s' Hrun). lia.
    + apply Hcarry.
      rewrite (destructions_app p (mem s) (mem s') _ Hev).
      rewrite filter_cons_False by (intros [[= ?]|?]; done).
      rewrite filter_frees by done. simpl. lia.
Qed.

Lemma paired_start : paired start.
Proof.
  split; simpl.
  - intros x v c Hx. by rewrite lookup_empty in Hx.
  - intros j w c Hj. by rewrite lookup_empty in Hj.
Qed.

Lemma destroyed_once_start : destroyed_once start.
Proof. intros p. by left. Qed.

Lemma run_destroyed_once prog : ∀ s s',
  consistent s →
  (Z.of_nat (size (shared_vars s)) + Z.of_nat (length prog) + 1 ≤ INT_MAX)%Z →
  Forall (λ st, adopts_raw st = false) prog →
  paired s → destroyed_once s →
  run prog s = Ok s' →
  consistent s' ∧ paired s' ∧ destroyed_once s'.
Proof.
  induction prog as [|st rest IH]; intros s s' Hcons Hb Hraw Hpair Honce Hrun.
  - by injection Hrun as <-.
  - simpl in Hrun. destruct (exec st s) as [s1|f] eqn:Hstep; [| done].
    simpl length in Hb. apply Forall_cons in Hraw as [Hst Hrest].
    assert (Hb0 : in_bounds s) by (unfold in_bounds; lia).
    pose proof (exec_size st s s1 Hstep) as Hsize.
    destruct (exec_preserved st s s1 Hcons Hb0 Hstep) as [Hcons1 _].
    apply (IH s1); [done | lia | done | | | done].
    + exact (exec_paired st s s1 Hpair Hst Hstep).
    + exact (exec_destroyed_once st s s1 Hcons Hb0 Hpair Honce Hstep).
Qed.

(** X2. On every run that adopts no raw pointer, no payload's destructor
    runs twice; and [operator->] of a shared pointer in scope whose control
    block is allocated yields the payload behind that block, whose
    destructor has not run.  (Runs of fewer than 2^31 - 1 statements.) *)
Theorem payloads_destroyed_at_most_once prog s :
  (Z.of_nat (length prog) + 1 ≤ INT_MAX)%Z →
  Forall (λ st, adopts_raw st = false) prog →
  run prog start = Ok s →
  (∀ p, destructions p (mem s) ≤ 1) ∧
  (∀ x v c p, shared_vars s !! x = Some v → control v = Some c →
              is_Some (blocks (mem s) !! c) → shared_arrow v = Some p →
              p = c + 1 ∧ destructions p (mem s) = 0).
Proof.
  intros Hlen Hraw Hrun.
  destruct (run_destroyed_once prog start s) as (Hcons & Hpair & Honce);
    [apply consistent_start | | done | apply paired_start
     | apply destroyed_once_start | done |].
  { change (size (shared_vars start)) with 0. lia. }
  split.
  - intros p. destruct (Honce p) as [-> | [-> _]]; lia.
  - intros x v c p Hx Hctl [cb Hcb] Harrow.
    destruct Hpair as [Hsh _]. specialize (Hsh x v c Hx Hctl).
    unfold shared_arrow in Harrow.
    assert (p = c + 1) as -> by congruence.
    split; [done |].
    destruct (Honce (c + 1)) as [Hz | [_ (c' & Heq & [_ Hgone])]]; [done |].
    assert (c' = c) by lia. subst c'.
    specialize (Hgone cb Hcb).
    pose proof (strong_owners s Hcons c cb Hcb) as Hso.
    pose proof (owners_pos c x _ v Hx Hctl). lia.
Qed.

Lemma payloads_destroyed_at_most_once_witness :
  ∃ s, run [MakeShared 0 false; SharedCopy 1 0; WeakFromShared 0 1;
            WeakFromShared 1 0; SharedEnd 0; SharedCopy 2 1; SharedEnd 1;
            SharedEnd 2] start = Ok s ∧
       destructions 1 (mem s) ≤ 1.
Proof.
  destruct (run [MakeShared 0 false; SharedCopy 1 0; WeakFromShared 0 1;
                 WeakFromShared 1 0; SharedEnd 0; SharedCopy 2 1; SharedEnd 1;
                 SharedEnd 2] start) as [s|f] eqn:Hrun;
    [| vm_compute in Hrun; discriminate].
  exists s. split; [reflexivity |].
  refine (proj1 (payloads_destroyed_at_most_once _ s _ _ Hrun) 1).
  - vm_compute. discriminate.
  - repeat constructor.
Defined.

(** X7. Move construction hands the pair to the new shared pointer and
    leaves the source empty without touching the heap: every block keeps
    its counts and its number of owners, and the source reports
    [use_count()] 0. *)
Theorem shared_move_keeps_counts s x y v :
  shared_vars s !! x = None → shared_vars s !! y = Some v →
  ∃ s', exec (SharedMove x y) s = Ok s' ∧
        mem s' = mem s ∧ weak_vars s' = weak_vars s ∧
        shared_vars s' !! x = Some v ∧
        shared_vars s' !! y = Some shared_default ∧
        use_count shared_default (mem s') = Ok (0%Z, mem s') ∧
        use_count v (mem s') = use_count v (mem s) ∧
        ∀ c, owners c (shared_vars s') = owners c (shared_vars s).
Proof.
  intros Hx Hy. simpl. unfold new_shared, the_shared. rewrite Hx, Hy. simpl.
  rewrite shared_eta.
  assert (x ≠ y) by congruence.
  eexists. split; [reflexivity |]. simpl.
  split; [done |]. split; [done |].
  split; [apply lookup_insert_eq |].
  split; [rewrite lookup_insert_ne by done; apply lookup_insert_eq |].
  split; [done |]. split; [done |].
  intros c. rewrite owners_insert_new by (by rewrite lookup_insert_ne).
  pose proof (owners_insert c y (shared_vars s) (SharedPtr None None) v Hy) as Ho.
  change (refers c (SharedPtr None None)) with 0 in Ho. lia.
Qed.

Lemma shared_move_keeps_counts_witness :
  let s := System (Heap {[ 0 := ControlBlock 1 0 ]} [] 2)
                  {[ 0 := SharedPtr (Some 1) (Some 0) ]} ∅ in
  ∃ s', exec (SharedMove 1 0) s = Ok s' ∧ mem s' = mem s ∧
        owners 0 (shared_vars s') = owners 0 (shared_vars s).
Proof.
  intros s.
  destruct (shared_move_keeps_counts s 1 0 (SharedPtr (Some 1) (Some 0))
              eq_refl eq_refl) as (s' & Hrun & Hmem & _ & _ & _ & _ & _ & Hown).
  exists s'. split; [exact Hrun |]. split; [exact Hmem |]. exact (Hown 0).
Defined.

Lemma shared_assign_is_end_then_construct_witness :
  let s := System (Heap {[ 0 := ControlBlock 1 0; 2 := ControlBlock 1 0 ]} [] 4)
                  {[ 0 := SharedPtr (Some 1) (Some 0);
                     1 := SharedPtr (Some 3) (Some 2) ]} ∅ in
  exec (SharedCopyAssign 0 1) s = run [SharedEnd 0; SharedCopy 0 1] s ∧
  exec (SharedMoveAssign 0 1) s = run [SharedEnd 0; SharedMove 0 1] s.
Proof.
  intros s. apply (shared_assign_is_end_then_construct s 0 1); [lia |].
  exists (SharedPtr (Some 3) (Some 2)). reflexivity.
Defined.

Lemma weak_assign_is_end_then_construct_witness :
  let s := System (Heap {[ 0 := ControlBlock 1 2 ]} [] 2)
                  {[ 0 := SharedPtr (Some 1) (Some 0) ]}
                  {[ 0 := WeakPtr (Some 1) (Some 0); 1 := weak_default ]} in
  exec (WeakAssignShared 1 0) s = run [WeakEnd 1; WeakFromShared 1 0] s.
Proof.
  intros s. apply (weak_assign_is_end_then_construct s 1 0).
  exists (SharedPtr (Some 1) (Some 0)). reflexivity.
Defined.

Lemma shared_self_assignment_is_noop_witness :
  let s := System (Heap {[ 0 := ControlBlock 1 0 ]} [] 2)
                  {[ 0 := SharedPtr (Some 1) (Some 0) ]} ∅ in
  exec (SharedCopyAssign 0 0) s = Ok s ∧ exec (SharedMoveAssign 0 0) s = Ok s.
Proof.
  intros s. apply (shared_self_assignment_is_noop s 0).
  exists (SharedPtr (Some 1) (Some 0)). reflexivity.
Defined.

Lemma statements_touch_only_named_blocks_witness :
  let s := System (Heap {[ 0 := ControlBlock 1 0; 2 := ControlBlock 1 0 ]} [] 4)
                  {[ 0 := SharedPtr (Some 1) (Some 0);
                     1 := SharedPtr (Some 3) (Some 2) ]} ∅ in
  ∃ s', exec (SharedEnd 0) s = Ok s' ∧
        blocks (mem s') !! 2 = blocks (mem s) !! 2.
Proof.
  intros s.
  destruct (exec (SharedEnd 0) s) as [s'|f] eqn:Hrun;
    [| vm_compute in Hrun; discriminate].
  exists s'. split; [reflexivity |].
  apply (statements_touch_only_named_blocks (SharedEnd 0) s s' 2 Hrun).
  - vm_compute. intros Hin. apply list_elem_of_singleton in Hin. discriminate.
  - vm_compute. discriminate.
Defined.

Lemma use_count_is_number_of_owners_witness :
  ∃ s, run [MakeShared 0 false; SharedCopy 1 0; SharedCopy 2 1; SharedEnd 0]
           start = Ok s ∧
       use_count (SharedPtr (Some 1) (Some 0)) (mem s) = Ok (2%Z, mem s).
Proof.
  destruct (run [MakeShared 0 false; SharedCopy 1 0; SharedCopy 2 1; SharedEnd 0]
                start) as [s|f] eqn:Hrun;
    [| vm_compute in Hrun; discriminate].
  exists s. split; [reflexivity |].
  assert (Hlen : (Z.of_nat (length [MakeShared 0 false; SharedCopy 1 0;
                                    SharedCopy 2 1; SharedEnd 0]) + 1
                  ≤ INT_MAX)%Z) by (vm_compute; discriminate).
  assert (Hthrow : Forall (λ st, may_throw st = false)
                     [MakeShared 0 false; SharedCopy 1 0; SharedCopy 2 1;
                      SharedEnd 0]) by (repeat constructor).
  destruct (use_count_is_number_of_owners _ s Hlen Hthrow Hrun) as [Hsh _].
  assert (Hs : Ok s = run [MakeShared 0 false; SharedCopy 1 0; SharedCopy 2 1;
                           SharedEnd 0] start) by (by rewrite Hrun).
  vm_compute in Hs. injection Hs as ->.
  destruct (Hsh 1 (SharedPtr (Some 1) (Some 0)) 0 eq_refl eq_refl) as [Huse _].
  { eexists. vm_compute. reflexivity. }
  rewrite Huse. vm_compute. reflexivity.
Defined.


End shared_and_weak_facts.

(** * Properties of my_unique_ptr *)

Section unique_ptr_facts.
Import unique_ptr.

Implicit Types (h : heap) (s : system) (a p : nat) (this src : my_unique_ptr).

Lemma delete_obj_null h : delete_obj None h = Ok h.
Proof. reflexivity. Qed.

Lemma delete_obj_live a h :
  a ∈ live h →
  delete_obj (Some a) h = Ok (Heap (live h ∖ {[a]}) (destroyed h ++ [a]) (next_addr h)).
Proof. intros Ha. unfold delete_obj. by rewrite decide_True. Qed.

Lemma destructions_snoc_eq p h l nx :
  destructions p (Heap l (destroyed h ++ [p]) nx) = S (destructions p h).
Proof.
  unfold destructions. simpl. rewrite filter_app, length_app. simpl.
  rewrite filter_cons_True by done. simpl. lia.
Qed.

Lemma destructions_snoc_ne p a h l nx :
  a ≠ p → destructions p (Heap l (destroyed h ++ [a]) nx) = destructions p h.
Proof.
  intros Hne. unfold destructions. simpl. rewrite filter_app, length_app. simpl.
  rewrite filter_cons_False by done. simpl. lia.
Qed.

(** What the destructor of a pointer owning a live object (or nothing) does
    to the count of destructor runs of [p]. *)
Lemma unique_dtor_owned this h :
  (∀ a, rawPtr this = Some a → a ∈ live h) →
  ∃ h', unique_dtor this h = Ok h' ∧
        (∀ a, a ∈ live h' ↔ a ∈ live h ∧ rawPtr this ≠ Some a) ∧
        (∀ p, destructions p h' =
              if decide (rawPtr this = Some p) then S (destructions p h)
              else destructions p h).
Proof.
  intros Hlive. unfold unique_dtor. destruct (rawPtr this) as [a|] eqn:Hraw.
  - rewrite delete_obj_live by auto. eexists. split; [reflexivity |]. split.
    + intros b. simpl. rewrite elem_of_difference, elem_of_singleton.
      split; intros [? ?]; split; auto; congruence.
    + intros p. destruct (decide (Some a = Some p)) as [[= ->]|Hne].
      * apply destructions_snoc_eq.
      * apply destructions_snoc_ne. congruence.
  - exists h. split; [reflexivity |]. split.
    + intros b. split; [intros ?; split; [done | congruence] | by intros [? _]].
    + intros p. by rewrite decide_False.
Qed.

(** The new-expression of [make_unique] gives the storage back when the
    constructor throws: no object is left behind. *)
Lemma make_unique_throw_rolls_back h :
  ∃ h', make_unique true h = (Thrown, h') ∧ live h' = live h ∧
        destroyed h' = destroyed h.
Proof. eexists. split; [reflexivity |]. done. Qed.

Lemma exec_End_eq s x this h :
  vars s !! x = Some this → unique_dtor this (mem s) = Ok h →
  exec (End_ x) s = Ok (System h (delete x (vars s))).
Proof. intros Hx Hd. unfold exec. by rewrite Hx, Hd. Qed.

Lemma run_cons_eq st rest s s' :
  exec st s = Ok s' → run (st :: rest) s = run rest s'.
Proof. intros He. simpl. by rewrite He. Qed.

Lemma delete_both_inserted (m : gmap nat my_unique_ptr) x y vx vy :
  delete x (delete y (<[x := vx]> (<[y := vy]> m))) = delete x (delete y m).
Proof.
  apply map_eq. intros k.
  destruct (decide (k = x)) as [->|]; [by rewrite !lookup_delete_eq |].
  rewrite !(lookup_delete_ne _ x) by done.
  destruct (decide (k = y)) as [->|]; [by rewrite !lookup_delete_eq |].
  rewrite !(lookup_delete_ne _ y) by done.
  by rewrite !lookup_insert_ne by done.
Qed.

(** A pointer that holds the handle of a live object, or none, and an
    empty pointer go out of scope, in either order: the destructor of the
    object held runs once, and no other destructor runs. *)
Lemma holder_and_empty_end s x y this order :
  x ≠ y →
  vars s !! x = Some this →
  vars s !! y = Some unique_default →
  (∀ a, rawPtr this = Some a → a ∈ live (mem s)) →
  order = [End_ x; End_ y] ∨ order = [End_ y; End_ x] →
  ∃ s', run order s = Ok s' ∧
        vars s' = delete x (delete y (vars s)) ∧
        (∀ a, a ∈ live (mem s') ↔ a ∈ live (mem s) ∧ rawPtr this ≠ Some a) ∧
        (∀ q, destructions q (mem s') =
              if decide (rawPtr this = Some q) then S (destructions q (mem s))
              else destructions q (mem s)).
Proof.
  intros Hxy Hx Hy Hlive Horder.
  destruct (unique_dtor_owned this (mem s) Hlive) as (h1 & Hd & Hl1 & Hc1).
  destruct Horder as [-> | ->].
  - rewrite (run_cons_eq _ _ s _ (exec_End_eq s x _ _ Hx Hd)).
    erewrite run_cons_eq; cycle 1.
    { apply exec_End_eq with (this := unique_default).
      - simpl. by rewrite lookup_delete_ne.
      - reflexivity. }
    eexists. split; [reflexivity |]. simpl. split; [apply delete_delete |].
    split; [exact Hl1 | exact Hc1].
  - rewrite (run_cons_eq _ _ s _ (exec_End_eq s y _ _ Hy eq_refl)).
    erewrite run_cons_eq; cycle 1.
    { apply exec_End_eq with (this := this).
      - simpl. by rewrite lookup_delete_ne.
      - simpl. exact Hd. }
    eexists. split; [reflexivity |]. simpl. split; [done |].
    split; [exact Hl1 | exact Hc1].
Qed.

(** C8. Move construction hands the handle of the source, or its
    emptiness, to the new pointer and leaves the source empty, touching no
    object.  Move assignment between two different pointers first deletes
    what the destination owned, whatever the source holds, then does the
    same transfer.  Moving a pointer onto itself changes nothing, and the
    object it owns is destroyed once when the pointer goes out of scope.
    After either kind of move, when the two pointers go out of scope, in
    either order, the destructor of each object involved has run exactly
    once more than before, and no other destructor has run. *)
Theorem unique_move_transfers_ownership s x y src :
  x ≠ y →
  vars s !! y = Some src →
  (∀ a, rawPtr src = Some a → a ∈ live (mem s)) →
  (* move construction of a new pointer [x] from [y] *)
  (vars s !! x = None →
   ∃ s1, exec (Move x y) s = Ok s1 ∧
         vars s1 !! x = Some src ∧
         vars s1 !! y = Some unique_default ∧
         mem s1 = mem s ∧
         ∀ order, order = [End_ x; End_ y] ∨ order = [End_ y; End_ x] →
           ∃ s2, run order s1 = Ok s2 ∧
                 vars s2 = delete x (delete y (vars s)) ∧
                 ∀ q, destructions q (mem s2) =
                      if decide (rawPtr src = Some q)
                      then S (destructions q (mem s))
                      else destructions q (mem s)) ∧
  (* move assignment to an existing pointer [x] from [y] *)
  (∀ this, vars s !! x = Some this →
     (∀ a, rawPtr this = Some a → a ∈ live (mem s) ∧ rawPtr src ≠ Some a) →
   ∃ s1, exec (MoveAssign x y) s = Ok s1 ∧
         vars s1 !! x = Some src ∧
         vars s1 !! y = Some unique_default ∧
         unique_dtor this (mem s) = Ok (mem s1) ∧
         (∀ a, a ∈ live (mem s1) ↔ a ∈ live (mem s) ∧ rawPtr this ≠ Some a) ∧
         (∀ q, destructions q (mem s1) =
               if decide (rawPtr this = Some q)
               then S (destructions q (mem s))
               else destructions q (mem s)) ∧
         ∀ order, order = [End_ x; End_ y] ∨ order = [End_ y; End_ x] →
           ∃ s2, run order s1 = Ok s2 ∧
                 vars s2 = delete x (delete y (vars s)) ∧
                 ∀ q, destructions q (mem s2) =
                      if decide (rawPtr this = Some q ∨ rawPtr src = Some q)
                      then S (destructions q (mem s))
                      else destructions q (mem s)) ∧
  (* self move assignment *)
  exec (MoveAssign y y) s = Ok s ∧
  ∃ s2, run [MoveAssign y y; End_ y] s = Ok s2 ∧
        vars s2 = delete y (vars s) ∧
        ∀ q, destructions q (mem s2) =
             if decide (rawPtr src = Some q)
             then S (destructions q (mem s))
             else destructions q (mem s).
Proof.
  intros Hxy Hy Hlive.
  assert (Hself : exec (MoveAssign y y) s = Ok s).
  { unfold exec. rewrite Hy. rewrite bool_decide_eq_true_2 by done. simpl.
    rewrite insert_insert_eq, insert_id by done. by destruct s. }
  destruct src as [r]. cbn [rawPtr] in *.
  split; [| split; [| split]].
  - intros Hx.
    set (s1 := System (mem s)
                 (<[x := UniquePtr r]> (<[y := unique_default]> (vars s)))).
    assert (Hx1 : vars s1 !! x = Some (UniquePtr r))
      by (simpl; apply lookup_insert_eq).
    assert (Hy1 : vars s1 !! y = Some unique_default)
      by (simpl; rewrite lookup_insert_ne by done; apply lookup_insert_eq).
    exists s1. split; [unfold exec; by rewrite Hx, Hy |].
    split; [done |]. split; [done |]. split; [done |].
    intros order Horder.
    destruct (holder_and_empty_end s1 x y (UniquePtr r) order Hxy Hx1 Hy1 Hlive Horder)
      as (s2 & Hrun & Hvars & _ & Hcount).
    exists s2. split; [done |]. split; [| exact Hcount].
    rewrite Hvars. apply delete_both_inserted.
  - intros this Hx Hown.
    destruct (unique_dtor_owned this (mem s) (λ a Ha, proj1 (Hown a Ha)))
      as (h1 & Hd & Hl1 & Hc1).
    assert (Hlive1 : ∀ a, r = Some a → a ∈ live h1).
    { intros a ->. apply Hl1. split; [by apply Hlive |].
      intros Hthis. by destruct (Hown a Hthis) as [_ Hne]. }
    set (s1 := System h1
                 (<[x := UniquePtr r]> (<[y := unique_default]> (vars s)))).
    assert (Hx1 : vars s1 !! x = Some (UniquePtr r))
      by (simpl; apply lookup_insert_eq).
    assert (Hy1 : vars s1 !! y = Some unique_default)
      by (simpl; rewrite lookup_insert_ne by done; apply lookup_insert_eq).
    exists s1. split.
    { unfold exec. rewrite Hx, Hy. rewrite bool_decide_eq_false_2 by done.
      unfold move_assign. unfold unique_dtor in Hd. by rewrite Hd. }
    split; [done |]. split; [done |]. split; [done |].
    split; [exact Hl1 |]. split; [exact Hc1 |].
    intros order Horder.
    destruct (holder_and_empty_end s1 x y (UniquePtr r) order Hxy Hx1 Hy1 Hlive1 Horder)
      as (s2 & Hrun & Hvars & _ & Hcount).
    exists s2. split; [done |]. split.
    + rewrite Hvars. apply delete_both_inserted.
    + intros q. rewrite Hcount. simpl. rewrite Hc1.
      destruct (decide (r = Some q)) as [Hr|Hr];
        destruct (decide (rawPtr this = Some q)) as [Ht|Ht].
      * subst r. by destruct (Hown q Ht) as [_ Hne].
      * by rewrite decide_True by (by right).
      * by rewrite decide_True by (by left).
      * rewrite decide_False; [done |]. by intros [?|?].
  - exact Hself.
  - destruct (unique_dtor_owned (UniquePtr r) (mem s) Hlive)
      as (h1 & Hd & _ & Hc1).
    rewrite (run_cons_eq _ _ s s Hself).
    rewrite (run_cons_eq _ _ s _ (exec_End_eq s y _ _ Hy Hd)).
    eexists. split; [reflexivity |]. split; [done |]. exact Hc1.
Qed.

Lemma unique_move_transfers_ownership_witness :
  let s := System (Heap {[ 3; 4 ]} [] 5)
                  {[ 0 := UniquePtr (Some 3); 1 := UniquePtr (Some 4) ]} in
  let e := System (Heap {[ 3 ]} [] 4)
                  {[ 0 := UniquePtr (Some 3); 1 := UniquePtr None ]} in
  (∃ s1 s2, exec (MoveAssign 0 1) s = Ok s1 ∧
            vars s1 !! 0 = Some (UniquePtr (Some 4)) ∧
            vars s1 !! 1 = Some unique_default ∧
            destructions 3 (mem s1) = 1 ∧
            run [End_ 1; End_ 0] s1 = Ok s2 ∧
            destructions 3 (mem s2) = 1 ∧ destructions 4 (mem s2) = 1) ∧
  (∃ e1, exec (MoveAssign 0 1) e = Ok e1 ∧
         vars e1 !! 0 = Some (UniquePtr None) ∧
         destructions 3 (mem e1) = 1) ∧
  (∃ s1, exec (Move 2 1) s = Ok s1 ∧
         vars s1 !! 2 = Some (UniquePtr (Some 4)) ∧
         vars s1 !! 1 = Some unique_default) ∧
  exec (MoveAssign 1 1) s = Ok s.
Proof.
  intros s e.
  assert (H01 : 0 ≠ 1) by lia.
  assert (H21 : 2 ≠ 1) by lia.
  assert (Hlive : ∀ a, rawPtr (UniquePtr (Some 4)) = Some a → a ∈ live (mem s)).
  { intros a [= <-]. simpl. set_solver. }
  assert (Hown : ∀ a, rawPtr (UniquePtr (Some 3)) = Some a →
                      a ∈ live (mem s) ∧ rawPtr (UniquePtr (Some 4)) ≠ Some a).
  { intros a [= <-]. simpl. split; [set_solver | discriminate]. }
  assert (Hnone : ∀ a, rawPtr (UniquePtr None) = Some a → a ∈ live (mem e))
    by (intros a; discriminate).
  assert (Hown' : ∀ a, rawPtr (UniquePtr (Some 3)) = Some a →
                       a ∈ live (mem e) ∧ rawPtr (UniquePtr None) ≠ Some a).
  { intros a [= <-]. simpl. split; [set_solver | discriminate]. }
  destruct (unique_move_transfers_ownership s 0 1 (UniquePtr (Some 4))
              H01 eq_refl Hlive) as (_ & Hassign & Hself & _).
  destruct (unique_move_transfers_ownership s 2 1 (UniquePtr (Some 4))
              H21 eq_refl Hlive) as (Hctor & _).
  destruct (unique_move_transfers_ownership e 0 1 (UniquePtr None)
              H01 eq_refl Hnone) as (_ & Hempty & _).
  split; [| split; [| split]].
  - destruct (Hassign (UniquePtr (Some 3)) eq_refl Hown)
      as (s1 & He & Hx & Hy & _ & _ & Hd1 & Hends).
    destruct (Hends [End_ 1; End_ 0] (or_intror eq_refl))
      as (s2 & Hrun & _ & Hd2).
    exists s1, s2. split; [exact He |]. split; [exact Hx |].
    split; [exact Hy |]. split; [rewrite Hd1; reflexivity |].
    split; [exact Hrun |]. split; rewrite Hd2; reflexivity.
  - destruct (Hempty (UniquePtr (Some 3)) eq_refl Hown')
      as (e1 & He & Hx & _ & _ & _ & Hd1 & _).
    exists e1. split; [exact He |]. split; [exact Hx |].
    rewrite Hd1; reflexivity.
  - destruct (Hctor eq_refl) as (s1 & He & Hx & Hy & _).
    exists s1. auto.
  - exact Hself.
Defined.

(** ** Programs over unique pointers *)

Implicit Types (x y : nat).

Lemma exclusive_start : exclusive start.
Proof.
  split; simpl.
  - intros x a Hx. by rewrite lookup_empty in Hx.
  - intros x y a Hx. by rewrite lookup_empty in Hx.
  - intros a Ha. by apply not_elem_of_empty in Ha.
  - intros a Ha. by apply not_elem_of_empty in Ha.
  - apply NoDup_nil_2.
  - intros a Ha. by apply not_elem_of_nil in Ha.
Qed.

(** Deleting what an in-scope pointer holds never faults, and afterwards
    exactly that object is gone. *)
Lemma delete_owned s x this :
  exclusive s → vars s !! x = Some this →
  ∃ h', delete_obj (rawPtr this) (mem s) = Ok h' ∧
        next_addr h' = next_addr (mem s) ∧
        (∀ a, a ∈ live h' ↔ a ∈ live (mem s) ∧ rawPtr this ≠ Some a) ∧
        NoDup (destroyed h') ∧
        (∀ a, a ∈ destroyed h' ↔ a ∈ destroyed (mem s) ∨ rawPtr this = Some a).
Proof.
  intros Hex Hx. destruct this as [[a|]]; simpl.
  - assert (Ha : a ∈ live (mem s)) by (by eapply (owned_live s Hex)).
    rewrite decide_True by done. eexists. split; [done |]. simpl.
    split; [done |]. split; [| split].
    + intros b. rewrite elem_of_difference, elem_of_singleton.
      split; intros [? ?]; split; auto; congruence.
    + apply NoDup_app. split; [apply (destroyed_once s Hex) |].
      split; [| apply NoDup_singleton].
      intros b Hb ->%list_elem_of_singleton.
      by destruct (destroyed_dead s Hex a Hb).
    + intros b. rewrite elem_of_app, list_elem_of_singleton.
      split; (intros [?|?]; [by left | right; congruence]).
  - exists (mem s). split; [done |]. split; [done |]. split; [| split].
    + intros b. split; [by intros ? | by intros [? _]].
    + apply (destroyed_once s Hex).
    + intros b. split; [auto | by intros [?|?]].
Qed.

Lemma exec_exclusive st s s' :
  exclusive s → exec st s = Ok s' → exclusive s'.
Proof.
  intros Hex Hrun. destruct st as [x | x throws | x y | x y | x]; simpl in Hrun.
  - (* Default *)
    destruct (vars s !! x) eqn:Hx; [done |]. injection Hrun as <-.
    destruct Hex as [Hol Hoo Hlo Hlb Hdo Hdd]. split; simpl; auto.
    + intros y a Hy. destruct (decide (y = x)) as [->|Hne].
      * by rewrite lookup_insert_eq in Hy.
      * rewrite lookup_insert_ne in Hy by done. eauto.
    + intros y z a Hy Hz.
      destruct (decide (y = x)) as [->|]; [by rewrite lookup_insert_eq in Hy |].
      destruct (decide (z = x)) as [->|]; [by rewrite lookup_insert_eq in Hz |].
      rewrite lookup_insert_ne in Hy, Hz by done. eauto.
    + intros a Ha. destruct (Hlo a Ha) as [y Hy]. exists y.
      rewrite lookup_insert_ne; [done |]. intros ->. congruence.
  - (* Make *)
    destruct (vars s !! x) eqn:Hx; [done |].
    destruct Hex as [Hol Hoo Hlo Hlb Hdo Hdd].
    unfold make_unique in Hrun. destruct throws; injection Hrun as <-.
    + split; simpl; auto.
      * intros a Ha. specialize (Hlb a Ha). lia.
      * intros a Ha. destruct (Hdd a Ha). split; [done | lia].
    + set (n := next_addr (mem s)).
      split; simpl.
      * intros y a Hy. rewrite elem_of_union, elem_of_singleton.
        destruct (decide (y = x)) as [->|Hne].
        -- rewrite lookup_insert_eq in Hy. left. congruence.
        -- rewrite lookup_insert_ne in Hy by done. eauto.
      * intros y z a Hy Hz.
        assert (Hfresh : ∀ w, vars s !! w = Some (UniquePtr (Some n)) → False).
        { intros w Hw. specialize (Hlb n (Hol w n Hw)). unfold n in Hlb. lia. }
        destruct (decide (y = x)) as [->|Hy'];
          destruct (decide (z = x)) as [->|Hz']; [done | | |].
        -- rewrite lookup_insert_eq in Hy. rewrite lookup_insert_ne in Hz by done.
           injection Hy as <-. by destruct (Hfresh z).
        -- rewrite lookup_insert_eq in Hz. rewrite lookup_insert_ne in Hy by done.
           injection Hz as <-. by destruct (Hfresh y).
        -- rewrite lookup_insert_ne in Hy, Hz by done. eauto.
      * intros a. rewrite elem_of_union, elem_of_singleton. intros [->|Ha].
        -- exists x. by rewrite lookup_insert_eq.
        -- destruct (Hlo a Ha) as [y Hy]. exists y.
           rewrite lookup_insert_ne; [done |]. intros ->. congruence.
      * intros a. rewrite elem_of_union, elem_of_singleton. intros [->|Ha].
        -- unfold n. lia.
        -- specialize (Hlb a Ha). lia.
      * done.
      * intros a Ha. destruct (Hdd a Ha) as [Hnl Hlt]. split; [| lia].
        rewrite elem_of_union, elem_of_singleton. intros [->|?]; [| done].
        unfold n in Hlt. lia.
  - (* Move *)
    destruct (vars s !! x) eqn:Hx; [destruct (vars s !! y); done |].
    destruct (vars s !! y) as [src|] eqn:Hy; [| done].
    simpl in Hrun. injection Hrun as <-.
    assert (Hxy : x ≠ y) by congruence.
    destruct Hex as [Hol Hoo Hlo Hlb Hdo Hdd].
    assert (Hsrc : UniquePtr (rawPtr src) = src) by (by destruct src).
    rewrite Hsrc.
    split; simpl; auto.
    + intros z a Hz. destruct (decide (z = x)) as [->|Hzx].
      * rewrite lookup_insert_eq in Hz. injection Hz as ->. eauto.
      * rewrite lookup_insert_ne in Hz by done.
        destruct (decide (z = y)) as [->|Hzy].
        -- by rewrite lookup_insert_eq in Hz.
        -- rewrite lookup_insert_ne in Hz by done. eauto.
    + assert (Hin : ∀ z a,
                <[x := src]> (<[y := UniquePtr None]> (vars s)) !! z
                  = Some (UniquePtr (Some a)) →
                (z = x ∧ vars s !! y = Some (UniquePtr (Some a))) ∨
                (z ≠ x ∧ z ≠ y ∧ vars s !! z = Some (UniquePtr (Some a)))).
      { intros z a Hz. destruct (decide (z = x)) as [->|Hzx].
        - rewrite lookup_insert_eq in Hz. injection Hz as ->. auto.
        - rewrite lookup_insert_ne in Hz by done.
          destruct (decide (z = y)) as [->|Hzy].
          + by rewrite lookup_insert_eq in Hz.
          + rewrite lookup_insert_ne in Hz by done. auto. }
      intros z1 z2 a Hz1 Hz2.
      destruct (Hin z1 a Hz1) as [[-> H1]|(? & ? & H1)];
        destruct (Hin z2 a Hz2) as [[-> H2]|(? & ? & H2)]; [done | | |].
      * pose proof (Hoo y z2 a H1 H2). congruence.
      * pose proof (Hoo z1 y a H1 H2). congruence.
      * eauto.
    + intros a Ha. destruct (Hlo a Ha) as [z Hz].
      destruct (decide (z = y)) as [->|Hzy].
      * exists x. rewrite lookup_insert_eq. congruence.
      * exists z. rewrite lookup_insert_ne by congruence.
        by rewrite lookup_insert_ne.
  - (* MoveAssign *)
    destruct (vars s !! x) as [this|] eqn:Hx; [| done].
    destruct (vars s !! y) as [src|] eqn:Hy; [| done].
    unfold move_assign in Hrun. case_bool_decide as Hxy.
    + injection Hrun as <-. subst y.
      rewrite insert_insert_eq.
      assert (src = this) by congruence. subst src.
      rewrite insert_id by done. by destruct s.
    + destruct (delete_owned s x this Hex Hx)
        as (h' & Hdel & Hnext & Hlive & Hnd & Hdest).
      rewrite Hdel in Hrun. injection Hrun as <-.
      destruct Hex as [Hol Hoo Hlo Hlb Hdo Hdd].
      assert (Hsrc : UniquePtr (rawPtr src) = src) by (by destruct src).
      rewrite Hsrc.
      assert (Hin : ∀ z a,
                <[x := src]> (<[y := UniquePtr None]> (vars s)) !! z
                  = Some (UniquePtr (Some a)) →
                (z = x ∧ vars s !! y = Some (UniquePtr (Some a))) ∨
                (z ≠ x ∧ z ≠ y ∧ vars s !! z = Some (UniquePtr (Some a)))).
      { intros z a Hz. destruct (decide (z = x)) as [->|Hzx].
        - rewrite lookup_insert_eq in Hz. injection Hz as ->. auto.
        - rewrite lookup_insert_ne in Hz by done.
          destruct (decide (z = y)) as [->|Hzy].
          + by rewrite lookup_insert_eq in Hz.
          + rewrite lookup_insert_ne in Hz by done. auto. }
      assert (Hother : ∀ z a, z ≠ x → vars s !! z = Some (UniquePtr (Some a)) →
                              rawPtr this ≠ Some a).
      { intros z a Hzx Hz Hthis. apply Hzx. apply (Hoo z x a Hz).
        rewrite Hx. destruct this as [r]. simpl in Hthis. by subst r. }
      split; simpl.
      * intros z a Hz. apply Hlive.
        destruct (Hin z a Hz) as [[-> H1]|(? & ? & H1)]; split; eauto.
      * intros z1 z2 a Hz1 Hz2.
        destruct (Hin z1 a Hz1) as [[-> H1]|(? & ? & H1)];
          destruct (Hin z2 a Hz2) as [[-> H2]|(? & ? & H2)]; [done | | |].
        -- pose proof (Hoo y z2 a H1 H2). congruence.
        -- pose proof (Hoo z1 y a H1 H2). congruence.
        -- eauto.
      * intros a Ha. apply Hlive in Ha as [Ha Hnot].
        destruct (Hlo a Ha) as [z Hz].
        destruct (decide (z = x)) as [->|Hzx].
        { exfalso. apply Hnot. rewrite Hx in Hz. by injection Hz as ->. }
        destruct (decide (z = y)) as [->|Hzy].
        -- exists x. rewrite lookup_insert_eq. congruence.
        -- exists z. by rewrite !lookup_insert_ne.
      * intros a Ha. apply Hlive in Ha as [Ha _]. rewrite Hnext. auto.
      * done.
      * intros a Ha. rewrite Hnext. apply Hdest in Ha as [Ha|Ha].
        -- destruct (Hdd a Ha) as [Hnl Hlt]. split; [| done].
           rewrite Hlive. by intros [? _].
        -- split; [rewrite Hlive; by intros [_ ?] |].
           apply Hlb. apply (Hol x). rewrite Hx. destruct this as [r].
           simpl in Ha. by subst r.
  - (* End_ *)
    destruct (vars s !! x) as [this|] eqn:Hx; [| done].
    destruct (delete_owned s x this Hex Hx)
      as (h' & Hdel & Hnext & Hlive & Hnd & Hdest).
    unfold unique_dtor in Hrun. rewrite Hdel in Hrun. injection Hrun as <-.
    destruct Hex as [Hol Hoo Hlo Hlb Hdo Hdd].
    split; simpl.
    + intros z a Hz. apply lookup_delete_Some in Hz as [Hzx Hz].
      apply Hlive. split; [eauto |].
      intros Hthis. apply Hzx. apply (Hoo x z a); [| done].
      rewrite Hx. destruct this as [r]. simpl in Hthis. by subst r.
    + intros z1 z2 a Hz1 Hz2.
      apply lookup_delete_Some in Hz1 as [_ Hz1].
      apply lookup_delete_Some in Hz2 as [_ Hz2]. eauto.
    + intros a Ha. apply Hlive in Ha as [Ha Hnot].
      destruct (Hlo a Ha) as [z Hz]. exists z.
      rewrite lookup_delete_ne; [done |]. intros ->.
      apply Hnot. rewrite Hx in Hz. by injection Hz as ->.
    + intros a Ha. apply Hlive in Ha as [Ha _]. rewrite Hnext. auto.
    + done.
    + intros a Ha. rewrite Hnext. apply Hdest in Ha as [Ha|Ha].
      * destruct (Hdd a Ha) as [Hnl Hlt]. split; [| done].
        rewrite Hlive. by intros [? _].
      * split; [rewrite Hlive; by intros [_ ?] |].
        apply Hlb. apply (Hol x). rewrite Hx. destruct this as [r].
        simpl in Ha. by subst r.
Qed.

(** In an exclusive state a statement fails only for reasons of scope. *)
Lemma exec_fault_scope st s f :
  exclusive s → exec st s = Fault f → f = NotInScope.
Proof.
  intros Hex Hrun. destruct st as [x | x throws | x y | x y | x]; simpl in Hrun.
  - destruct (vars s !! x); congruence.
  - destruct (vars s !! x); [congruence |].
    destruct (make_unique throws (mem s)) as [[v|] h]; done.
  - destruct (vars s !! x); destruct (vars s !! y); simpl in Hrun; congruence.
  - destruct (vars s !! x) as [this|] eqn:Hx; [| congruence].
    destruct (vars s !! y) as [src|] eqn:Hy; [| congruence].
    unfold move_assign in Hrun. case_bool_decide; [done |].
    destruct (delete_owned s x this Hex Hx) as (h' & Hdel & _).
    by rewrite Hdel in Hrun.
  - destruct (vars s !! x) as [this|] eqn:Hx; [| congruence].
    destruct (delete_owned s x this Hex Hx) as (h' & Hdel & _).
    unfold unique_dtor in Hrun. by rewrite Hdel in Hrun.
Qed.

Lemma run_exclusive prog : ∀ s,
  exclusive s →
  match run prog s with
  | Ok s' => exclusive s'
  | Fault f => f = NotInScope
  end.
Proof.
  induction prog as [|st rest IH]; intros s Hex; simpl; [done |].
  destruct (exec st s) as [s1|f] eqn:Hstep.
  - apply IH. by eapply exec_exclusive.
  - by eapply exec_fault_scope.
Qed.

(** X13. A program that gets its objects from [make_unique] and moves,
    move-assigns and drops its pointers never deletes an object twice and
    never touches a deleted one: a run can only stop on a statement that is
    out of scope, no destructor has run twice, nothing destroyed is live,
    and every handle in scope is the handle of a live object held by no
    other pointer. *)
Theorem unique_programs_are_safe prog :
  match run prog start with
  | Ok s =>
      NoDup (destroyed (mem s)) ∧
      (∀ p, destructions p (mem s) ≤ 1) ∧
      (∀ a, a ∈ destroyed (mem s) → a ∉ live (mem s)) ∧
      (∀ x a, vars s !! x = Some (UniquePtr (Some a)) →
              a ∈ live (mem s) ∧
              ∀ y, vars s !! y = Some (UniquePtr (Some a)) → y = x)
  | Fault f => f = NotInScope
  end.
Proof.
  pose proof (run_exclusive prog start exclusive_start) as Hrun.
  destruct (run prog start) as [s|f]; [| done].
  destruct Hrun as [Hol Hoo Hlo Hlb Hdo Hdd].
  split; [done |]. split; [| split].
  - intros p. unfold destructions.
    assert (Hnd : NoDup (filter (λ a, a = p) (destroyed (mem s))))
      by (by apply NoDup_filter).
    destruct (filter (λ a, a = p) (destroyed (mem s))) as [|a [|b l]] eqn:Hf;
      simpl; [lia | lia |].
    assert (Ha : a ∈ filter (λ a, a = p) (destroyed (mem s)))
      by (rewrite Hf; apply list_elem_of_here).
    assert (Hb : b ∈ filter (λ a, a = p) (destroyed (mem s)))
      by (rewrite Hf; apply list_elem_of_further, list_elem_of_here).
    apply list_elem_of_filter in Ha as [-> _].
    apply list_elem_of_filter in Hb as [-> _].
    apply NoDup_cons in Hnd as [Hnot _].
    exfalso. apply Hnot. apply list_elem_of_here.
  - intros a Ha. by destruct (Hdd a Ha).
  - intros x a Hx. split; [eauto |]. intros y Hy. eauto.
Qed.

(** X14. In such a program the live objects are exactly the ones held by a
    pointer in scope; once every pointer has gone out of scope no object is
    left. *)
Theorem unique_programs_do_not_leak prog s :
  run prog start = Ok s →
  (∀ a, a ∈ live (mem s) ↔ ∃ x, vars s !! x = Some (UniquePtr (Some a))) ∧
  (vars s = ∅ → live (mem s) = ∅).
Proof.
  intros Hrun.
  pose proof (run_exclusive prog start exclusive_start) as Hex.
  rewrite Hrun in Hex. destruct Hex as [Hol Hoo Hlo Hlb Hdo Hdd].
  assert (Hiff : ∀ a, a ∈ live (mem s)
                      ↔ ∃ x, vars s !! x = Some (UniquePtr (Some a))).
  { intros a. split; [auto | intros [x Hx]; eauto]. }
  split; [done |].
  intros Hempty. apply set_eq. intros a. rewrite Hiff, Hempty.
  split; [intros [x Hx]; by rewrite lookup_empty in Hx |].
  intros Ha. by apply not_elem_of_empty in Ha.
Qed.

Lemma unique_programs_do_not_leak_witness :
  ∃ s, run [Make 0 false; Make 1 false; Default 2; MoveAssign 2 0;
            End_ 1; End_ 0; End_ 2] start = Ok s ∧
       vars s = ∅ ∧ live (mem s) = ∅.
Proof.
  destruct (run [Make 0 false; Make 1 false; Default 2; MoveAssign 2 0;
                 End_ 1; End_ 0; End_ 2] start) as [s|f] eqn:Hrun;
    [| vm_compute in Hrun; discriminate].
  exists s. split; [reflexivity |].
  assert (Hvars : vars s = ∅).
  { assert (Hs : Ok s = run [Make 0 false; Make 1 false; Default 2; MoveAssign 2 0;
                 End_ 1; End_ 0; End_ 2] start) by (by rewrite Hrun).
    vm_compute in Hs. by injection Hs as ->. }
  split; [exact Hvars |].
  exact (proj2 (unique_programs_do_not_leak _ s Hrun) Hvars).
Defined.

(** X15. In such a program [operator->] and [operator*] of a pointer in
    scope reach a live object or go through a null pointer, never to a
    deleted object; after a move construction the new pointer reaches what
    the source reached and access through the source is a null access. *)
Theorem unique_access_never_dangles prog s :
  run prog start = Ok s →
  (∀ z this, vars s !! z = Some this →
     match arrow this with
     | Some a => star this (mem s) = Ok a ∧ a ∈ live (mem s)
     | None => star this (mem s) = Fault NullAccess
     end) ∧
  (∀ x y src, vars s !! x = None → vars s !! y = Some src →
     ∃ s' dst moved,
       exec (Move x y) s = Ok s' ∧
       vars s' !! x = Some dst ∧ vars s' !! y = Some moved ∧
       star dst (mem s') = star src (mem s) ∧
       star moved (mem s') = Fault NullAccess).
Proof.
  intros Hrun.
  pose proof (run_exclusive prog start exclusive_start) as Hex.
  rewrite Hrun in Hex.
  split.
  - intros z [[a|]] Hz; unfold arrow, star; simpl; [| done].
    assert (Ha : a ∈ live (mem s)) by (by eapply (owned_live s Hex)).
    by rewrite decide_True.
  - intros x y src Hx Hy. simpl. rewrite Hx, Hy. simpl.
    eexists _, _, _. split; [reflexivity |]. simpl.
    split; [apply lookup_insert_eq |].
    split; [rewrite lookup_insert_ne by congruence; apply lookup_insert_eq |].
    split; [by destruct src | done].
Qed.

Lemma unique_access_never_dangles_witness :
  ∃ s, run [Make 0 false; Move 1 0] start = Ok s ∧
       star (UniquePtr (Some 0)) (mem s) = Ok 0 ∧
       star (UniquePtr None) (mem s) = Fault NullAccess.
Proof.
  destruct (run [Make 0 false; Move 1 0] start) as [s|f] eqn:Hrun;
    [| vm_compute in Hrun; discriminate].
  exists s. split; [reflexivity |].
  destruct (unique_access_never_dangles _ s Hrun) as [Hall _].
  assert (Hs : Ok s = run [Make 0 false; Move 1 0] start) by (by rewrite Hrun).
  vm_compute in Hs. injection Hs as ->.
  split.
  - exact (proj1 (Hall 1 (UniquePtr (Some 0)) eq_refl)).
  - exact (Hall 0 (UniquePtr None) eq_refl).
Defined.

(** X16. Move assignment between two different unique pointers does what
    the destruction of the destination followed by move construction from
    the source does, faults included. *)
Theorem move_assign_is_end_then_move s x y :
  x ≠ y → is_Some (vars s !! y) →
  exec (MoveAssign x y) s = run [End_ x; Move x y] s.
Proof.
  intros Hxy [src Hy]. simpl.
  destruct (vars s !! x) as [this|] eqn:Hx; [| done].
  rewrite Hy. unfold move_assign. rewrite bool_decide_eq_false_2 by done.
  unfold unique_dtor.
  destruct (delete_obj (rawPtr this) (mem s)) as [h'|f]; [| done].
  simpl. rewrite lookup_delete_eq, lookup_delete_ne, Hy by done. simpl.
  do 2 f_equal. apply map_eq. intros z.
  destruct (decide (z = x)) as [->|Hzx]; [by rewrite !lookup_insert_eq |].
  rewrite !(lookup_insert_ne _ x) by done.
  destruct (decide (z = y)) as [->|Hzy]; [by rewrite !lookup_insert_eq |].
  rewrite !(lookup_insert_ne _ y) by done.
  by rewrite lookup_delete_ne.
Qed.

Lemma move_assign_is_end_then_move_witness :
  let s := System (Heap {[ 3; 4 ]} [] 5)
                  {[ 0 := UniquePtr (Some 3); 1 := UniquePtr (Some 4) ]} in
  exec (MoveAssign 0 1) s = run [End_ 0; Move 0 1] s.
Proof.
  intros s. apply (move_assign_is_end_then_move s 0 1); [lia |].
  exists (UniquePtr (Some 4)). reflexivity.
Defined.

End unique_ptr_facts.
